(** * A chained hash table with load-factor driven growth (hash.c)

    Shallow embedding of [src/hash.c] and the properties of its
    specification.

    Conventions of the embedding.
    - [unsigned int] is a [Z] reduced modulo [2^32] after every arithmetic
      step, [unsigned long] a [Z] reduced modulo [2^64].
    - [float] is IEEE 754 binary32, round to nearest even, taken from the
      standard library's [SpecFloat] at precision 24 and maximal exponent 128;
      [float] expressions are evaluated in binary32 itself.
    - A [char*] key is the text before its terminating NUL, a [string]; the
      table stores the caller's pointer, so a key is assumed not to be
      overwritten by the caller while it is stored.
    - A [void*] value is an address, a [Z]; [NULL] is [0].
    - A chain of [struct association] linked through [next] is the list of
      its nodes, head first; the bucket array is a list of chains.
    - [malloc] is assumed to succeed.
    - A computation that the C standard leaves undefined (a remainder by
      zero, a read outside the bucket array) yields [None].
    - A call of [free] is recorded by what it frees; a node is named by its
      key and value, so the copy that a resize makes of a node and the node
      it copies are recorded alike. *)

From Stdlib Require Import ZArith Lia Ascii String Floats.SpecFloat.
From stdpp Require Import base option list gmap strings.

Open Scope Z_scope.

(** ** Machine arithmetic *)

Definition uint (z : Z) : Z := z mod 2 ^ 32.
Definition ulong (z : Z) : Z := z mod 2 ^ 64.

Definition f32_of_uint (n : Z) : spec_float := binary_normalize 24 128 n 0 false.
Definition f32_div : spec_float -> spec_float -> spec_float := SFdiv 24 128.
Definition f32_gt (x y : spec_float) : bool := SFltb y x.

(** ** Data model *)

Definition ptr := Z.
Definition NULL : ptr := 0.

Definition INITIAL_CAPACITY : Z := 16.
Definition LOAD_FACTOR_THR : Z := 5.

(** [struct association]: the [next] link is the tail of the chain. *)
Record association := { key : string; value : ptr }.

Abbreviation chain := (list association).

(** [struct hash]. *)
Record hash := { table : list chain; capacity : Z; num_elems : Z }.

(** ** Operations *)

Definition _hash_table_init (h : hash) (cap : Z) : hash :=
  {| table := replicate (Z.to_nat cap) []; capacity := cap; num_elems := 0 |}.

Definition hash_create : hash :=
  _hash_table_init {| table := []; capacity := 0; num_elems := 0 |} INITIAL_CAPACITY.

Definition hash_load_factor (h : hash) : spec_float :=
  f32_div (f32_of_uint (num_elems h)) (f32_of_uint (capacity h)).

(** The test [hash_load_factor(hash) > LOAD_FACTOR_THR] of [hash_insert]; the
    integer constant is converted to [float] for the comparison. *)
Definition over_threshold (h : hash) : bool :=
  f32_gt (hash_load_factor h) (f32_of_uint LOAD_FACTOR_THR).

(** The same test as a function of the two fields it reads. *)
Definition load_over (n c : Z) : bool :=
  f32_gt (f32_div (f32_of_uint n) (f32_of_uint c)) (f32_of_uint LOAD_FACTOR_THR).

(** [int c = *key] for a [char] that is signed, as on x86-64. *)
Definition char_to_int (a : ascii) : Z :=
  let b := Z.of_N (N_of_ascii a) in if 128 <=? b then b - 256 else b.

Fixpoint djb_loop (acc : Z) (k : string) : Z :=
  match k with
  | EmptyString => acc
  | String a k' => djb_loop (ulong (ulong (ulong (Z.shiftl acc 5) + acc) + char_to_int a)) k'
  end.

Definition _djb_hash (k : string) : Z := uint (djb_loop 5381 k).

(** [strcmp]: zero exactly on equal texts, otherwise the difference of the
    first two bytes that differ, read as [unsigned char]; a text that ends
    first compares below. *)
Fixpoint strcmp (s1 s2 : string) : Z :=
  match s1, s2 with
  | EmptyString, EmptyString => 0
  | EmptyString, String _ _ => -1
  | String _ _, EmptyString => 1
  | String a1 r1, String a2 r2 =>
      if Ascii.eqb a1 a2 then strcmp r1 r2
      else Z.of_N (N_of_ascii a1) - Z.of_N (N_of_ascii a2)
  end.

(** The scan [while (cur != NULL) { if (!strcmp(key, cur->key)) break; ... }]:
    the nodes walked past (the last of them is [prev]) and the rest of the
    chain, which starts at [cur]; an empty rest is [cur == NULL]. *)
Fixpoint find_assoc (k : string) (cur : chain) : chain * chain :=
  match cur with
  | [] => ([], [])
  | a :: next =>
      if strcmp k (key a) =? 0 then ([], cur)
      else let '(before, found) := find_assoc k next in (a :: before, found)
  end.

(** The part of [hash_insert] after the load-factor test. *)
Definition insert_in_bucket (h : hash) (k : string) (v : ptr) : option hash :=
  if capacity h =? 0 then None else
  let hashval := _djb_hash k in
  let idx := Z.to_nat (hashval mod capacity h) in
  head ← table h !! idx;
  let '(before, found) := find_assoc k head in
  match found with
  | cur :: next =>
      if negb (v =? NULL) then
        Some {| table := <[idx := before ++ {| key := key cur; value := v |} :: next]> (table h);
                capacity := capacity h;
                num_elems := num_elems h |}
      else
        Some {| table := <[idx := before ++ next]> (table h);
                capacity := capacity h;
                num_elems := uint (num_elems h - 1) |}
  | [] =>
      if negb (v =? NULL) then
        Some {| table := <[idx := {| key := k; value := v |} :: head]> (table h);
                capacity := capacity h;
                num_elems := uint (num_elems h + 1) |}
      else Some h
  end.

(** The inner [while] of [_hash_resize]: re-insert one old chain. *)
Fixpoint rehash_chain (insert : hash -> string -> ptr -> option hash)
    (cur : chain) (h : hash) : option hash :=
  match cur with
  | [] => Some h
  | tmp :: next => h' ← insert h (key tmp) (value tmp); rehash_chain insert next h'
  end.

(** The outer [for] of [_hash_resize], over the old bucket array. *)
Fixpoint rehash_table (insert : hash -> string -> ptr -> option hash)
    (old_table : list chain) (h : hash) : option hash :=
  match old_table with
  | [] => Some h
  | cur :: rest => h' ← rehash_chain insert cur h; rehash_table insert rest h'
  end.

(** [_hash_resize], with the [hash_insert] it calls back as a parameter. *)
Definition _hash_resize (insert : hash -> string -> ptr -> option hash)
    (h : hash) : option hash :=
  let old_table := table h in
  let old_capacity := capacity h in
  let h0 := _hash_table_init h (uint (old_capacity * 2)) in
  if Z.of_nat (length old_table) <? old_capacity then None
  else rehash_table insert (take (Z.to_nat old_capacity) old_table) h0.

(** [hash_insert] and [_hash_resize] call each other; [depth] bounds how
    deep calls of [_hash_resize] may nest.  With [depth = 0] an insertion
    that finds the load factor over the threshold has no result. *)
Fixpoint hash_insert (depth : nat) (h : hash) (k : string) (v : ptr) : option hash :=
  h1 ← (if over_threshold h then
          match depth with
          | O => None
          | S d => _hash_resize (hash_insert d) h
          end
        else Some h);
  insert_in_bucket h1 k v.

Fixpoint chain_get (k : string) (cur : chain) : ptr :=
  match cur with
  | [] => NULL
  | a :: next => if strcmp k (key a) =? 0 then value a else chain_get k next
  end.

Definition hash_get (h : hash) (k : string) : option ptr :=
  if capacity h =? 0 then None else
  let hashval := _djb_hash k in
  let idx := Z.to_nat (hashval mod capacity h) in
  head ← table h !! idx;
  Some (chain_get k head).

(** ** Calls and reachable tables *)

Inductive op :=
  | Insert (k : string) (v : ptr)
  | Get (k : string).

(** One call: the table after it and the value it returns ([NULL] stands for
    the absence of a result of [hash_insert]). *)
Definition step (depth : nat) (h : hash) (o : op) : option (hash * ptr) :=
  match o with
  | Insert k v => h' ← hash_insert depth h k v; Some (h', NULL)
  | Get k => r ← hash_get h k; Some (h, r)
  end.

(** The tables a program obtains from [hash_create] by calls that return. *)
Inductive reachable : hash -> Prop :=
  | reachable_create : reachable hash_create
  | reachable_step depth h o h' r :
      reachable h -> step depth h o = Some (h', r) -> reachable h'.

(** Successive insertions of a list of pairs. *)
Fixpoint insert_all (depth : nat) (h : hash) (kvs : list (string * ptr)) : option hash :=
  match kvs with
  | [] => Some h
  | (k, v) :: rest => h' ← hash_insert depth h k v; insert_all depth h' rest
  end.

(** The finite map a table represents. *)
Definition entry (a : association) : string * ptr := (key a, value a).

Definition to_map (h : hash) : gmap string ptr :=
  list_to_map (entry <$> concat (table h)).

(** Every key stored, over all chains. *)
Definition all_keys (h : hash) : list string := key <$> concat (table h).

(** The bucket a key belongs to in an array of [c] buckets. *)
Definition home (c : Z) (k : string) : nat := Z.to_nat (_djb_hash k mod c).

(** The finite map of one chain. *)
Definition chain_map (ch : chain) : gmap string ptr := list_to_map (entry <$> ch).

(** What an insertion does to the finite map: a [NULL] value removes. *)
Definition map_upsert (k : string) (v : ptr) (m : gmap string ptr) : gmap string ptr :=
  if v =? NULL then delete k m else <[k := v]> m.

(** What [insert_in_bucket] makes of the chain it scans. *)
Definition upsert_chain (k : string) (v : ptr) (head : chain) : chain :=
  let '(before, found) := find_assoc k head in
  match found with
  | cur :: next =>
      if negb (v =? NULL) then before ++ {| key := key cur; value := v |} :: next
      else before ++ next
  | [] => if negb (v =? NULL) then {| key := k; value := v |} :: head else head
  end.

(** What [insert_in_bucket] makes of [num_elems], by what the scan of the
    chain finds. *)
Definition count_after (k : string) (v : ptr) (head : chain) (n : Z) : Z :=
  match chain_map head !! k with
  | Some _ => if v =? NULL then uint (n - 1) else n
  | None => if v =? NULL then n else uint (n + 1)
  end.

(** The node of [k], if any, carries [v]; nothing else differs. *)
Definition set_value (k : string) (v : ptr) (a : association) : association :=
  if strcmp k (key a) =? 0 then {| key := key a; value := v |} else a.

(** The invariant of the tables that [hash_create] and [hash_insert] build. *)
Record inv (h : hash) : Prop := {
  inv_pow2 : exists i, 4 <= i <= 31 /\ capacity h = 2 ^ i;
  inv_len : length (table h) = Z.to_nat (capacity h);
  inv_home : forall i ch a,
    table h !! i = Some ch -> a ∈ ch -> home (capacity h) (key a) = i;
  inv_nodup : forall i ch, table h !! i = Some ch -> NoDup (key <$> ch);
  inv_nonnull : forall i ch a, table h !! i = Some ch -> a ∈ ch -> value a <> NULL;
  inv_count : num_elems h = uint (Z.of_nat (size (to_map h)))
}.

(** The first statement of [hash_insert]: the load-factor test and the
    resize it may call. *)
Definition grow (depth : nat) (h : hash) : option hash :=
  if over_threshold h then
    match depth with
    | O => None
    | S d => _hash_resize (hash_insert d) h
    end
  else Some h.

(** What the proofs ask of the insertion that [_hash_resize] calls back. *)
Definition insert_ok (ins : hash -> string -> ptr -> option hash) : Prop :=
  (forall h k v, capacity h = 0 -> ins h k v = None) /\
  (forall h k v h', inv h -> ins h k v = Some h' ->
     inv h' /\ capacity h <= capacity h' /\
     to_map h' = map_upsert k v (to_map h)).

(** The stored keys stay within six times the capacity until the capacity
    reaches [2^30], which it never exceeds. *)
Record inv_load (h : hash) : Prop := {
  load_cap : capacity h <= 2 ^ 30;
  load_size : capacity h < 2 ^ 30 -> Z.of_nat (size (to_map h)) <= 6 * capacity h
}.

(** Up to [2^21] buckets the load-factor test is exact, and the stored keys
    exceed five times the capacity by one at most. *)
Definition inv_tight (h : hash) : Prop :=
  capacity h <= 2 ^ 21 -> Z.of_nat (size (to_map h)) <= 5 * capacity h + 1.

(** What a call [hash_insert(h, k, v)] does: [h1] is the table after the
    load-factor test and the resize it may call, [h'] the table the call
    leaves. *)
Record insert_result (h : hash) (k : string) (v : ptr) (h1 h' : hash) : Prop := {
  res_grow : forall depth, grow (S depth) h = Some h1;
  res_same : over_threshold h = false -> h1 = h;
  res_bucket : insert_in_bucket h1 k v = Some h';
  res_inv1 : inv h1;
  res_map1 : to_map h1 = to_map h;
  res_cap1 : capacity h1 = (if over_threshold h then 2 * capacity h else capacity h);
  res_inv : inv h';
  res_load : inv_load h';
  res_tight : inv_tight h';
  res_cap : capacity h' = capacity h1;
  res_map : to_map h' = map_upsert k v (to_map h);
  res_table : table h' = <[home (capacity h1) k :=
                 upsert_chain k v (table h1 !!! home (capacity h1) k)]> (table h1)
}.

(** ** Sample tables *)

(** A key of one character, distinct for each [i] below 223. *)
Definition sample_key (i : nat) : string := String (ascii_of_nat (33 + i)) EmptyString.

(** The first [n] sample keys, the key of [i] with the value [i + 1]. *)
Definition sample_pairs (n : nat) : list (string * ptr) :=
  (fun i => (sample_key i, Z.of_nat i + 1)) <$> seq 0 n.

(** The table that holds the first [n] sample keys, inserted in order. *)
Definition sample_table (n : nat) : hash :=
  default hash_create (insert_all 1 hash_create (sample_pairs n)).

(** In the table that the scan of [hash_insert] runs on, the node of [k]
    takes the value [v] where it is. *)
Definition overwritten (k : string) (v : ptr) (tbl : list chain) : list chain :=
  (fun ch : chain => set_value k v <$> ch) <$> tbl.

(** ** Teardown *)

(** What [hash_free] passes to [free]: a node, the bucket array, the
    [struct hash] itself.  Keys and values are the caller's and are never
    passed. *)
Inductive freed :=
  | FreeNode (a : association)
  | FreeTable (tbl : list chain)
  | FreeHash.

(** The inner [while] of [hash_free]: [next] is read before the node is
    freed. *)
Fixpoint free_chain (cur : chain) : list freed :=
  match cur with
  | [] => []
  | a :: next => FreeNode a :: free_chain next
  end.

(** The outer [for] of [hash_free]. *)
Fixpoint free_buckets (tbl : list chain) : list freed :=
  match tbl with
  | [] => []
  | cur :: rest => free_chain cur ++ free_buckets rest
  end.

(** [hash_free]: the calls of [free], in order.  The loop counter is an
    [int]: with [2^31] buckets or more its increment overflows, and a bucket
    array shorter than the capacity is read outside; both have no result. *)
Definition hash_free (h : hash) : option (list freed) :=
  if 2 ^ 31 <=? capacity h then None
  else if Z.of_nat (length (table h)) <? capacity h then None
  else Some (free_buckets (take (Z.to_nat (capacity h)) (table h))
             ++ [FreeTable (table h); FreeHash]).

(** ** Reference functions of the properties *)

(** The recurrence [hash * 33 + c] of the comment in [_djb_hash], over the
    integers. *)
Fixpoint djb_ideal (acc : Z) (k : string) : Z :=
  match k with
  | EmptyString => acc
  | String a k' => djb_ideal (acc * 33 + char_to_int a) k'
  end.

(** The value last given to [k] in a list of pairs, [r] when the list does
    not name [k]. *)
Fixpoint last_assigned (k : string) (kvs : list (string * ptr)) (r : ptr) : ptr :=
  match kvs with
  | [] => r
  | (k', v) :: rest => last_assigned k rest (if strcmp k k' =? 0 then v else r)
  end.

(** ** The calls of [free] of an insertion *)

(** The part of [hash_insert] after the load-factor test, with what it
    passes to [free]: the node it unlinked, when the value is [NULL] and the
    scan found the key.  The branches are those of [insert_in_bucket]. *)
Definition insert_in_bucket_traced (h : hash) (k : string) (v : ptr)
    : option (hash * list freed) :=
  if capacity h =? 0 then None else
  let hashval := _djb_hash k in
  let idx := Z.to_nat (hashval mod capacity h) in
  head ← table h !! idx;
  let '(before, found) := find_assoc k head in
  match found with
  | cur :: next =>
      if negb (v =? NULL) then
        Some ({| table := <[idx := before ++ {| key := key cur; value := v |} :: next]> (table h);
                 capacity := capacity h;
                 num_elems := num_elems h |}, [])
      else
        Some ({| table := <[idx := before ++ next]> (table h);
                 capacity := capacity h;
                 num_elems := uint (num_elems h - 1) |}, [FreeNode cur])
  | [] =>
      if negb (v =? NULL) then
        Some ({| table := <[idx := {| key := k; value := v |} :: head]> (table h);
                 capacity := capacity h;
                 num_elems := uint (num_elems h + 1) |}, [])
      else Some (h, [])
  end.

(** The inner [while] of [_hash_resize]: each old node is re-inserted, then
    freed. *)
Fixpoint rehash_chain_traced (insert : hash -> string -> ptr -> option (hash * list freed))
    (cur : chain) (h : hash) : option (hash * list freed) :=
  match cur with
  | [] => Some (h, [])
  | tmp :: next =>
      r1 ← insert h (key tmp) (value tmp);
      r2 ← rehash_chain_traced insert next r1.1;
      Some (r2.1, r1.2 ++ FreeNode tmp :: r2.2)
  end.

(** The outer [for] of [_hash_resize]. *)
Fixpoint rehash_table_traced (insert : hash -> string -> ptr -> option (hash * list freed))
    (old_table : list chain) (h : hash) : option (hash * list freed) :=
  match old_table with
  | [] => Some (h, [])
  | cur :: rest =>
      r1 ← rehash_chain_traced insert cur h;
      r2 ← rehash_table_traced insert rest r1.1;
      Some (r2.1, r1.2 ++ r2.2)
  end.

(** [_hash_resize] with its calls of [free]: those of the loops, then the
    old bucket array. *)
Definition _hash_resize_traced (insert : hash -> string -> ptr -> option (hash * list freed))
    (h : hash) : option (hash * list freed) :=
  let old_table := table h in
  let old_capacity := capacity h in
  let h0 := _hash_table_init h (uint (old_capacity * 2)) in
  if Z.of_nat (length old_table) <? old_capacity then None
  else
    r ← rehash_table_traced insert (take (Z.to_nat old_capacity) old_table) h0;
    Some (r.1, r.2 ++ [FreeTable old_table]).

(** [hash_insert] with its calls of [free], in order: those of the resize,
    if any, then the node unlinked, if any. *)
Fixpoint hash_insert_traced (depth : nat) (h : hash) (k : string) (v : ptr)
    : option (hash * list freed) :=
  r1 ← (if over_threshold h then
          match depth with
          | O => None
          | S d => _hash_resize_traced (hash_insert_traced d) h
          end
        else Some (h, []));
  r2 ← insert_in_bucket_traced r1.1 k v;
  Some (r2.1, r1.2 ++ r2.2).

(** What a resize of [h] passes to [free] when it does not nest: every old
    node, bucket after bucket, then the old bucket array. *)
Definition resize_frees (h : hash) : list freed :=
  (FreeNode <$> concat (table h)) ++ [FreeTable (table h)].

(** ** Tables of many keys *)

(** A key of [i] characters, so a different key for each [i]. *)
Definition unary_key (i : nat) : string := Nat.iter i (String "a"%char) EmptyString.

(** The first [n] such keys, each with the value [1]. *)
Definition unary_pairs (n : nat) : list (string * ptr) :=
  (fun i => (unary_key i, 1)) <$> seq 0 n.

(** [2^32], the number of values of an [unsigned int]. *)
Definition two32 : nat := Z.to_nat (2 ^ 32).

(** A table grown by insertions alone has the initial capacity, or a
    capacity that the stored keys exceeded five times over before it was
    doubled. *)
Definition grown (h : hash) : Prop :=
  capacity h = 16 \/ 5 * capacity h < 2 * Z.of_nat (size (to_map h)).

(** * Binary32 arithmetic of the load-factor test *)

Section Float32.

(** The number of binary digits of a positive number. *)
Lemma digits2_pos_log2 p : Zpos (digits2_pos p) = Z.log2 (Zpos p) + 1.
Proof.
  induction p as [p IH|p IH|]; simpl digits2_pos; try reflexivity.
  - rewrite Pos2Z.inj_succ, IH.
    change (Z.pos p~1) with (2 * Z.pos p + 1).
    rewrite Z.log2_succ_double by lia. lia.
  - rewrite Pos2Z.inj_succ, IH.
    change (Z.pos p~0) with (2 * Z.pos p).
    rewrite Z.log2_double by lia. lia.
Qed.

Lemma iter_xO_pow p d : Zpos (Pos.iter xO p d) = Zpos p * 2 ^ Zpos d.
Proof.
  induction d as [|d IH] using Pos.peano_ind.
  - simpl. lia.
  - rewrite Pos.iter_succ, Pos2Z.inj_succ, Z.pow_succ_r by lia.
    rewrite Pos2Z.inj_xO, IH. lia.
Qed.

(** A mantissa of exactly 24 digits in the normal exponent range is its own
    rounding. *)
Lemma round_aux_normal s M e :
  Zpos (digits2_pos M) = 24 -> -149 <= e <= 104 ->
  binary_round_aux 24 128 s (Zpos M) e loc_Exact = S754_finite s M e.
Proof.
  intros HM He.
  unfold binary_round_aux, shr_fexp, Zdigits2. rewrite HM.
  replace (fexp 24 128 (24 + e) - e) with 0 by (unfold fexp, emin; lia).
  cbn [shr shr_record_of_loc loc_of_shr_record round_nearest_even shr_m Zdigits2].
  rewrite HM.
  replace (fexp 24 128 (24 + e) - e) with 0 by (unfold fexp, emin; lia).
  cbn [shr shr_record_of_loc shr_m].
  replace (e <=? 128 - 24) with true by (symmetry; apply Z.leb_le; lia).
  reflexivity.
Qed.

(** Conversion of an integer of at most 24 bits is exact: the integer is
    shifted left into a mantissa of 24 digits. *)
Lemma f32_of_uint_pos p :
  Zpos p < 2 ^ 24 ->
  exists M, f32_of_uint (Zpos p) = S754_finite false M (Z.log2 (Zpos p) - 23)
         /\ Zpos M = Zpos p * 2 ^ (23 - Z.log2 (Zpos p))
         /\ Zpos (digits2_pos M) = 24.
Proof.
  intros Hp.
  assert (Hl : 0 <= Z.log2 (Zpos p) < 24).
  { split; [apply Z.log2_nonneg|]. apply Z.log2_lt_pow2; lia. }
  unfold f32_of_uint, binary_normalize, binary_round, shl_align.
  rewrite digits2_pos_log2.
  replace (fexp 24 128 (Z.log2 (Z.pos p) + 1 + 0) - 0) with (Z.log2 (Zpos p) - 23)
    by (unfold fexp, emin; lia).
  replace (fexp 24 128 (Z.log2 (Z.pos p) + 1 + 0)) with (Z.log2 (Zpos p) - 23)
    by (unfold fexp, emin; lia).
  destruct (Z.log2 (Zpos p) - 23) as [|q|q] eqn:E; try lia.
  - exists p. rewrite round_aux_normal by (rewrite ?digits2_pos_log2; lia).
    replace (Z.log2 (Zpos p)) with 23 by lia. repeat split; try lia.
    rewrite digits2_pos_log2; lia.
  - exists (Pos.iter xO p q).
    assert (HM : Zpos (Pos.iter xO p q) = Zpos p * 2 ^ (23 - Z.log2 (Zpos p))).
    { rewrite iter_xO_pow. f_equal. f_equal. lia. }
    assert (Hd : Zpos (digits2_pos (Pos.iter xO p q)) = 24).
    { rewrite digits2_pos_log2, HM, Z.log2_mul_pow2 by lia. lia. }
    rewrite round_aux_normal by (auto; lia). auto.
Qed.

(** Division by a power of two is exact: it moves the exponent. *)
Lemma f32_div_pow2 M e1 e2 :
  Zpos (digits2_pos M) = 24 -> -100 <= e1 - e2 <= 100 ->
  f32_div (S754_finite false M e1) (S754_finite false 8388608 e2)
  = S754_finite false M (e1 - e2 - 23).
Proof.
  intros HM He.
  unfold f32_div, SFdiv, SFdiv_core_binary, Zdigits2. rewrite HM.
  change (Z.pos (digits2_pos 8388608)) with 24.
  replace (Z.min (fexp 24 128 (24 + e1 - (24 + e2))) (e1 - e2)) with (e1 - e2 - 24)
    by (unfold fexp, emin; lia).
  replace (e1 - e2 - (e1 - e2 - 24)) with 24 by lia.
  rewrite Z.shiftl_mul_pow2 by lia.
  assert (Hdiv : Z.div_eucl (Zpos M * 2 ^ 24) 8388608 = (Zpos (M~0), 0)).
  { pose proof (Z.div_eucl_eq (Zpos M * 2 ^ 24) 8388608 ltac:(lia)) as H1.
    pose proof (Z.mod_pos_bound (Zpos M * 2 ^ 24) 8388608 ltac:(lia)) as H2.
    unfold Z.modulo in H2.
    destruct (Z.div_eucl (Zpos M * 2 ^ 24) 8388608) as [q r].
    f_equal; lia. }
  rewrite Hdiv.
  change (new_location 8388608 0) with loc_Exact.
  unfold binary_round_aux, shr_fexp, Zdigits2.
  cbn [digits2_pos]. rewrite Pos2Z.inj_succ, HM.
  replace (fexp 24 128 (Z.succ 24 + (e1 - e2 - 24)) - (e1 - e2 - 24)) with 1
    by (unfold fexp, emin; lia).
  cbn [shr shr_record_of_loc SpecFloat.iter_pos shr_1 loc_of_shr_record round_nearest_even shr_m xorb orb].
  rewrite HM.
  replace (fexp 24 128 (24 + (e1 - e2 - 24 + 1)) - (e1 - e2 - 24 + 1)) with 0
    by (unfold fexp, emin; lia).
  cbn [shr shr_m].
  replace (e1 - e2 - 24 + 1 <=? 128 - 24) with true by (symmetry; apply Z.leb_le; lia).
  f_equal. lia.
Qed.


Lemma iter_pos_iter {A} (f : A -> A) p x : SpecFloat.iter_pos f p x = Pos.iter f x p.
Proof.
  revert x. induction p as [p IH|p IH|]; intros x; simpl; try reflexivity.
  - rewrite !IH, <- !Pos.iter_swap. reflexivity.
  - rewrite !IH. reflexivity.
Qed.

Lemma shr_1_nonneg m r s :
  0 <= m -> shr_1 {| shr_m := m; shr_r := r; shr_s := s |}
            = {| shr_m := m / 2; shr_r := Z.odd m; shr_s := orb r s |}.
Proof.
  intros Hm. rewrite <- Z.div2_div.
  destruct m as [|[p|p|]|p]; try reflexivity. lia.
Qed.

(** Shifting [n] right by [j] bits keeps the quotient; nothing is recorded in
    the round and sticky bits when the bits shifted out are all zero. *)
Lemma shr_iter n j :
  0 <= n ->
  exists r s, Pos.iter shr_1 {| shr_m := n; shr_r := false; shr_s := false |} j
              = {| shr_m := n / 2 ^ Zpos j; shr_r := r; shr_s := s |}
           /\ (n mod 2 ^ Zpos j = 0 -> r = false /\ s = false).
Proof.
  intros Hn. induction j as [|j IH] using Pos.peano_ind.
  - cbn [Pos.iter]. rewrite shr_1_nonneg by lia. eexists _, _. split; [reflexivity|].
    intros H. split; [|reflexivity].
    change (2 ^ 1) with 2 in H. rewrite Zodd_mod, H. reflexivity.
  - destruct IH as (r & s & IH & Hex).
    rewrite Pos.iter_succ, IH, shr_1_nonneg by (apply Z.div_pos; lia).
    eexists _, _. split.
    + f_equal. rewrite Pos2Z.inj_succ, Z.pow_succ_r, Z.mul_comm by lia.
      rewrite Z.div_div by lia. reflexivity.
    + intros H. rewrite Pos2Z.inj_succ, Z.pow_succ_r in H by lia.
      assert (Hp : 0 < 2 ^ Zpos j) by (apply Z.pow_pos_nonneg; lia).
      assert (Hb := Z.mod_pos_bound n (2 ^ Zpos j) Hp).
      assert (Hb3 := Z.mod_pos_bound (n / 2 ^ Zpos j) 2 ltac:(lia)).
      assert (E0 : n mod 2 ^ Zpos j = 0 /\ (n / 2 ^ Zpos j) mod 2 = 0).
      { rewrite Z.mul_comm, Z.rem_mul_r in H by lia.
        assert (0 <= 2 ^ Zpos j * ((n / 2 ^ Zpos j) mod 2)) by (apply Z.mul_nonneg_nonneg; lia).
        split; [lia|].
        destruct (Z.eq_dec ((n / 2 ^ Zpos j) mod 2) 0) as [|Hne]; [assumption|].
        assert (0 < 2 ^ Zpos j * ((n / 2 ^ Zpos j) mod 2)) by (apply Z.mul_pos_pos; lia).
        lia. }
      destruct E0 as [E0 E1]. destruct (Hex E0) as [-> ->].
      split; [|reflexivity]. rewrite Zodd_mod, E1. reflexivity.
Qed.

Lemma round_nearest_even_shr m r s :
  let m1 := round_nearest_even m (loc_of_shr_record {| shr_m := m; shr_r := r; shr_s := s |}) in
  (m1 = m \/ m1 = m + 1) /\ (r = false -> s = false -> m1 = m).
Proof.
  destruct r, s; cbn; try destruct (Z.even m); split; auto; intros; discriminate.
Qed.

(** Conversion of an integer of more than 24 bits: the low [s] bits are
    rounded away. *)
Lemma f32_of_uint_big p :
  2 ^ 24 <= Zpos p < 2 ^ 32 ->
  let s := Z.log2 (Zpos p) - 23 in
  let q := Zpos p / 2 ^ s in
  exists M e, f32_of_uint (Zpos p) = S754_finite false M e
    /\ Zpos (digits2_pos M) = 24 /\ 1 <= e <= 9
    /\ (Zpos M * 2 ^ e = q * 2 ^ s \/ Zpos M * 2 ^ e = (q + 1) * 2 ^ s)
    /\ (Zpos p mod 2 ^ s = 0 -> Zpos M = q /\ e = s).
Proof.
  intros Hp s q.
  assert (Hl : 24 <= Z.log2 (Zpos p) < 32).
  { split; [apply Z.log2_le_pow2; lia | apply Z.log2_lt_pow2; lia]. }
  assert (Hs : 1 <= s <= 8) by (unfold s; lia).
  pose proof (Z.log2_spec (Zpos p) ltac:(lia)) as Hspec.
  assert (H2s : 0 < 2 ^ s) by (apply Z.pow_pos_nonneg; lia).
  assert (Hq : 2 ^ 23 <= q < 2 ^ 24).
  { unfold q. replace (Z.log2 (Zpos p)) with (s + 23) in Hspec by (unfold s; lia).
    rewrite Z.pow_succ_r, !Z.pow_add_r in Hspec by lia.
    split.
    - apply Z.div_le_lower_bound; lia.
    - apply Z.div_lt_upper_bound; lia. }
  unfold f32_of_uint, binary_normalize, binary_round, shl_align.
  rewrite digits2_pos_log2.
  replace (fexp 24 128 (Z.log2 (Z.pos p) + 1 + 0)) with s by (unfold fexp, emin, s; lia).
  replace (s - 0) with s by lia.
  destruct s as [|sp|sp] eqn:Es; try lia.
  unfold binary_round_aux, shr_fexp, Zdigits2.
  rewrite digits2_pos_log2.
  replace (fexp 24 128 (Z.log2 (Z.pos p) + 1 + 0) - 0) with (Zpos sp) by (unfold fexp, emin; lia).
  cbn [shr shr_record_of_loc]. rewrite iter_pos_iter.
  destruct (shr_iter (Zpos p) sp ltac:(lia)) as (r & st & -> & Hex).
  fold q. cbn [shr_m].
  destruct (round_nearest_even_shr q r st) as [Hm1 Hm1e].
  set (m1 := round_nearest_even q _) in *.
  change (0 + Zpos sp) with (Zpos sp).
  destruct (Z.eq_dec m1 (2 ^ 24)) as [E|NE].
  - (* the mantissa carried into a 25th bit *)
    rewrite E. change (2 ^ 24) with 16777216. cbv beta iota.
    change (Z.pos (digits2_pos 16777216)) with 25.
    replace (fexp 24 128 (25 + Zpos sp) - Zpos sp) with 1 by (unfold fexp, emin; lia).
    cbn [shr shr_record_of_loc SpecFloat.iter_pos shr_1 shr_m].
    replace (Zpos sp + 1 <=? 128 - 24) with true by (symmetry; apply Z.leb_le; lia).
    exists 8388608%positive, (Zpos sp + 1). split; [reflexivity|].
    split; [reflexivity|]. split; [lia|].
    assert (m1 = q + 1) by lia.
    split.
    + right. rewrite Z.pow_add_r by lia. lia.
    + intros H0. destruct (Hex H0) as [-> ->]. specialize (Hm1e eq_refl eq_refl). lia.
  - assert (Hm : 2 ^ 23 <= m1 < 2 ^ 24) by lia.
    destruct m1 as [|M|M] eqn:EM; try lia.
    assert (HdM : Zpos (digits2_pos M) = 24).
    { rewrite digits2_pos_log2.
      assert (Z.log2 (Zpos M) = 23); [|lia].
      apply Z.log2_unique; lia. }
    cbv beta iota. rewrite HdM.
    replace (fexp 24 128 (24 + Zpos sp) - Zpos sp) with 0 by (unfold fexp, emin; lia).
    cbn [shr shr_record_of_loc shr_m].
    replace (Zpos sp <=? 128 - 24) with true by (symmetry; apply Z.leb_le; lia).
    exists M, (Zpos sp). split; [reflexivity|]. split; [assumption|]. split; [lia|].
    split.
    + destruct Hm1 as [->| ->]; auto.
    + intros H0. destruct (Hex H0) as [-> ->]. specialize (Hm1e eq_refl eq_refl). auto.
Qed.

(** The value [R] of [(float)n], for every [unsigned int] [n] but zero: [n]
    with the bits below the 24 leading ones rounded away. *)
Lemma f32_of_uint_spec n :
  0 < n < 2 ^ 32 ->
  let s := Z.max 0 (Z.log2 n - 23) in
  let q := n / 2 ^ s in
  exists M e R, f32_of_uint n = S754_finite false M e
    /\ Zpos (digits2_pos M) = 24 /\ -23 <= e <= 9
    /\ Zpos M * 2 ^ (e + 23) = R * 2 ^ 23
    /\ (R = q * 2 ^ s \/ R = (q + 1) * 2 ^ s)
    /\ (n mod 2 ^ s = 0 -> R = n /\ e = Z.log2 n - 23).
Proof.
  intros Hn s q. destruct n as [|p|p]; try lia.
  destruct (Z_lt_le_dec (Zpos p) (2 ^ 24)) as [Hlt|Hge].
  - destruct (f32_of_uint_pos p Hlt) as (M & -> & HM & Hd).
    assert (Hl : 0 <= Z.log2 (Zpos p) < 24).
    { split; [apply Z.log2_nonneg|]. apply Z.log2_lt_pow2; lia. }
    assert (Es : s = 0) by (unfold s; lia).
    assert (Eq : q = Zpos p) by (unfold q; rewrite Es; apply Z.div_1_r).
    exists M, (Z.log2 (Zpos p) - 23), (Zpos p).
    split; [reflexivity|]. split; [assumption|]. split; [lia|].
    split; [|split].
    + rewrite HM, <- Z.mul_assoc, <- Z.pow_add_r by lia. f_equal. f_equal. lia.
    + left. rewrite Eq, Es. lia.
    + intros _. split; reflexivity.
  - destruct (f32_of_uint_big p ltac:(lia)) as (M & e & -> & Hd & He & HR & Hex).
    assert (Hl : 24 <= Z.log2 (Zpos p) < 32).
    { split; [apply Z.log2_le_pow2; lia | apply Z.log2_lt_pow2; lia]. }
    assert (Es : s = Z.log2 (Zpos p) - 23) by (unfold s; lia).
    unfold q. rewrite Es.
    exists M, e, (Zpos M * 2 ^ e).
    split; [reflexivity|]. split; [assumption|]. split; [lia|].
    split; [|split].
    + rewrite Z.pow_add_r by lia. lia.
    + exact HR.
    + intros H. destruct (Hex H) as [-> ->]. split; [|reflexivity].
      pose proof (Z.div_mod (Zpos p) (2 ^ (Z.log2 (Zpos p) - 23))) as Hdm.
      rewrite H in Hdm.
      assert (0 < 2 ^ (Z.log2 (Zpos p) - 23)) by (apply Z.pow_pos_nonneg; lia).
      lia.
Qed.

(** A capacity, a power of two, converts exactly. *)
Lemma f32_of_uint_pow2 k :
  0 <= k <= 31 -> f32_of_uint (2 ^ k) = S754_finite false 8388608 (k - 23).
Proof.
  intros Hk.
  assert (0 < 2 ^ k) by (apply Z.pow_pos_nonneg; lia).
  assert (2 ^ k < 2 ^ 32) by (apply Z.pow_lt_mono_r; lia).
  destruct (f32_of_uint_spec (2 ^ k) ltac:(lia)) as (M & e & R & -> & _ & He & HM & _ & Hex).
  rewrite Z.log2_pow2 in Hex by lia.
  destruct Hex as [-> ->].
  { destruct (Z.max_spec 0 (k - 23)) as [[? ->]|[? ->]].
    - replace k with (k - 23 + 23) at 1 by lia.
      rewrite Z.pow_add_r, Z.mul_comm by lia. apply Z.mod_mul.
      apply Z.pow_nonzero; lia.
    - apply Z.mod_1_r. }
  replace (k - 23 + 23) with k in HM by lia.
  rewrite Z.mul_comm in HM. apply Z.mul_reg_l in HM; [|lia].
  f_equal. change (2 ^ 23) with (Zpos 8388608) in HM. congruence.
Qed.

(** Comparison of [5.0f] with a positive normal number. *)
Lemma SFltb_five M t :
  Zpos (digits2_pos M) = 24 -> -102 <= t ->
  SFltb (S754_finite false 10485760 (-21)) (S754_finite false M t)
  = (5 * 2 ^ 102 <? Zpos M * 2 ^ (t + 102)).
Proof.
  intros Hd Ht. unfold SFltb, SFcompare.
  rewrite digits2_pos_log2 in Hd.
  pose proof (Z.log2_spec (Zpos M) ltac:(lia)) as HM.
  replace (Z.log2 (Zpos M)) with 23 in HM by lia.
  change (Z.succ 23) with 24 in HM.
  destruct (Z.compare_spec (-21) t) as [E|E|E].
  - subst t. rewrite Pos.compare_cont_spec. cbn [Pos.switch_Eq].
    change (Pos.compare 10485760 M) with (Z.compare 10485760 (Zpos M)).
    change (2 ^ (-21 + 102)) with (2 ^ 81).
    destruct (Z.compare_spec 10485760 (Zpos M)); symmetry;
      [apply Z.ltb_ge | apply Z.ltb_lt | apply Z.ltb_ge]; lia.
  - symmetry. apply Z.ltb_lt.
    assert (2 ^ 82 <= 2 ^ (t + 102)) by (apply Z.pow_le_mono_r; lia).
    change (2 ^ 23) with 8388608 in HM. change (2 ^ 82) with 4835703278458516698824704 in *.
    nia.
  - symmetry. apply Z.ltb_ge.
    assert (0 < 2 ^ (t + 102)) by (apply Z.pow_pos_nonneg; lia).
    assert (2 ^ (t + 102) <= 2 ^ 80) by (apply Z.pow_le_mono_r; lia).
    change (2 ^ 24) with 16777216 in HM. change (2 ^ 80) with 1208925819614629174706176 in *.
    nia.
Qed.

(** The load-factor test on a count [n] and a capacity [2^k] compares the
    rounded count with five times the capacity. *)
Lemma load_over_spec n k :
  0 < n < 2 ^ 32 -> 0 <= k <= 31 ->
  let s := Z.max 0 (Z.log2 n - 23) in
  let q := n / 2 ^ s in
  exists R, load_over n (2 ^ k) = (5 * 2 ^ k <? R)
    /\ (R = q * 2 ^ s \/ R = (q + 1) * 2 ^ s)
    /\ (n mod 2 ^ s = 0 -> R = n).
Proof.
  intros Hn Hk s q. unfold load_over, f32_gt.
  rewrite f32_of_uint_pow2 by assumption.
  destruct (f32_of_uint_spec n Hn) as (M & e & R & -> & Hd & He & HM & HR & Hex).
  rewrite f32_div_pow2 by (auto; lia).
  change (f32_of_uint LOAD_FACTOR_THR) with (S754_finite false 10485760 (-21)).
  rewrite SFltb_five by (auto; lia).
  exists R. split; [|split; [exact HR | intros H; apply Hex, H]].
  assert (Hp : 0 < 2 ^ (102 - k)) by (apply Z.pow_pos_nonneg; lia).
  assert (E1 : 5 * 2 ^ 102 = 5 * 2 ^ k * 2 ^ (102 - k)).
  { rewrite <- Z.mul_assoc, <- Z.pow_add_r by lia. do 2 f_equal. lia. }
  assert (E2 : Zpos M * 2 ^ (e - (k - 23) - 23 + 102) = R * 2 ^ (102 - k)).
  { replace (e - (k - 23) - 23 + 102) with ((e + 23) + (79 - k)) by lia.
    rewrite Z.pow_add_r, Z.mul_assoc, HM by lia.
    rewrite <- Z.mul_assoc, <- Z.pow_add_r by lia. do 2 f_equal. lia. }
  rewrite E1, E2.
  destruct (Z.ltb_spec (5 * 2 ^ k) R); [apply Z.ltb_lt | apply Z.ltb_ge].
  - apply Z.mul_lt_mono_pos_r; assumption.
  - apply Z.mul_le_mono_nonneg_r; lia.
Qed.

Lemma load_over_zero k : 0 <= k <= 31 -> load_over 0 (2 ^ k) = false.
Proof. intros Hk. unfold load_over, f32_gt. rewrite f32_of_uint_pow2 by assumption. reflexivity. Qed.

(** Below [2^24] the test is exact. *)
Lemma load_over_exact n k :
  0 <= n < 2 ^ 24 -> 0 <= k <= 31 -> load_over n (2 ^ k) = (5 * 2 ^ k <? n).
Proof.
  intros Hn Hk.
  assert (0 < 2 ^ k) by (apply Z.pow_pos_nonneg; lia).
  destruct (Z.eq_dec n 0) as [->|].
  { rewrite load_over_zero by assumption. symmetry. apply Z.ltb_ge. lia. }
  destruct (load_over_spec n k ltac:(lia) Hk) as (R & -> & _ & Hex).
  assert (Z.log2 n < 24) by (apply Z.log2_lt_pow2; lia).
  rewrite Z.max_l, Z.mod_1_r in Hex by lia.
  rewrite Hex; reflexivity.
Qed.

(** A count of at most five times the capacity is never over the threshold:
    five times a power of two is a binary32 number, and rounding does not
    cross it. *)
Lemma load_over_false n k :
  0 <= n < 2 ^ 32 -> 0 <= k <= 31 -> n <= 5 * 2 ^ k -> load_over n (2 ^ k) = false.
Proof.
  intros Hn Hk Hle.
  assert (Hc : 0 < 2 ^ k) by (apply Z.pow_pos_nonneg; lia).
  destruct (Z.eq_dec n 0) as [->|]; [apply load_over_zero; assumption|].
  destruct (load_over_spec n k ltac:(lia) Hk) as (R & -> & HR & Hex).
  apply Z.ltb_ge.
  destruct (Z.max_spec 0 (Z.log2 n - 23)) as [[Hs Es]|[Hs Es]]; rewrite Es in *.
  - (* n has more than 24 bits *)
    set (s := Z.log2 n - 23) in *.
    pose proof (Z.log2_spec n ltac:(lia)) as Hl.
    assert (Hsk : s + 21 <= k).
    { destruct (Z_lt_le_dec k (s + 21)) as [Hlt|]; [|assumption].
      assert (2 ^ (k + 3) <= 2 ^ Z.log2 n) by (apply Z.pow_le_mono_r; unfold s in *; lia).
      rewrite Z.pow_add_r in * by lia. lia. }
    assert (Hp : 0 < 2 ^ s) by (apply Z.pow_pos_nonneg; lia).
    assert (E5 : 5 * 2 ^ k = 5 * 2 ^ (k - s) * 2 ^ s).
    { rewrite <- Z.mul_assoc, <- Z.pow_add_r by lia. do 2 f_equal. lia. }
    set (B := 5 * 2 ^ (k - s)) in *.
    pose proof (Z.div_mod n (2 ^ s) ltac:(lia)) as Hdm.
    pose proof (Z.mod_pos_bound n (2 ^ s) Hp) as Hb.
    set (q := n / 2 ^ s) in *. set (r := n mod 2 ^ s) in *.
    assert (Hq : q <= B) by nia.
    destruct HR as [->| ->]; [nia|].
    destruct (Z.eq_dec q B) as [E|NE].
    + assert (r = 0) by nia. rewrite Hex in * by assumption. lia.
    + nia.
  - rewrite Z.mod_1_r in Hex. rewrite Hex by reflexivity. assumption.
Qed.

(** A count of six times the capacity or more is over the threshold. *)
Lemma load_over_true n k :
  0 <= n < 2 ^ 32 -> 0 <= k <= 31 -> 6 * 2 ^ k <= n -> load_over n (2 ^ k) = true.
Proof.
  intros Hn Hk Hle.
  assert (Hc : 0 < 2 ^ k) by (apply Z.pow_pos_nonneg; lia).
  destruct (load_over_spec n k ltac:(lia) Hk) as (R & -> & HR & Hex).
  apply Z.ltb_lt.
  destruct (Z.max_spec 0 (Z.log2 n - 23)) as [[Hs Es]|[Hs Es]]; rewrite Es in *.
  - set (s := Z.log2 n - 23) in *.
    pose proof (Z.log2_spec n ltac:(lia)) as Hl.
    replace (Z.log2 n) with (s + 23) in Hl by (unfold s; lia).
    rewrite Z.pow_add_r in Hl by lia. change (2 ^ 23) with 8388608 in Hl.
    assert (Hp : 0 < 2 ^ s) by (apply Z.pow_pos_nonneg; lia).
    pose proof (Z.div_mod n (2 ^ s) ltac:(lia)) as Hdm.
    pose proof (Z.mod_pos_bound n (2 ^ s) Hp) as Hb.
    set (q := n / 2 ^ s) in *. set (r := n mod 2 ^ s) in *.
    assert (HY : q * 2 ^ s <= R) by (destruct HR as [->| ->]; lia).
    set (P := 2 ^ s) in *. set (Y := q * P) in *. lia.
  - rewrite Z.mod_1_r in Hex. rewrite Hex by reflexivity. lia.
Qed.

(** At [2^22] buckets the test is no longer exact: [5 * 2^22 + 1] is halfway
    between two binary32 numbers and rounds to the even one, [5 * 2^22]. *)
Example load_over_tie :
  load_over (5 * 2 ^ 22 + 1) (2 ^ 22) = false /\ load_over (5 * 2 ^ 22 + 2) (2 ^ 22) = true.
Proof. split; vm_compute; reflexivity. Qed.

Example load_over_16 :
  load_over 80 16 = false /\ load_over 81 16 = true.
Proof. split; vm_compute; reflexivity. Qed.

End Float32.

(** * Keys and chains *)

Section Chains.

Lemma strcmp_eq s1 s2 : strcmp s1 s2 = 0 <-> s1 = s2.
Proof.
  revert s2. induction s1 as [|a1 r1 IH]; intros [|a2 r2]; simpl; try (split; [lia | discriminate]).
  - tauto.
  - destruct (Ascii.eqb_spec a1 a2) as [->|Hne].
    + rewrite IH. split; congruence.
    + split; [|congruence]. intros H. exfalso. apply Hne.
      assert (E : N_of_ascii a1 = N_of_ascii a2) by lia.
      apply (f_equal ascii_of_N) in E. rewrite !ascii_N_embedding in E. exact E.
Qed.

Lemma strcmp_cases k k' :
  (k = k' /\ (strcmp k k' =? 0) = true) \/ (k <> k' /\ (strcmp k k' =? 0) = false).
Proof.
  destruct (Z.eqb_spec (strcmp k k') 0) as [E|E]; rewrite strcmp_eq in E; auto.
Qed.

Lemma chain_map_cons a (ch : chain) :
  chain_map (a :: ch) = <[key a := value a]> (chain_map ch).
Proof. reflexivity. Qed.

Lemma chain_map_app (ch1 ch2 : chain) :
  chain_map (ch1 ++ ch2) = chain_map ch1 ∪ chain_map ch2.
Proof. unfold chain_map. rewrite fmap_app. apply list_to_map_app. Qed.

Lemma entry_keys (ch : chain) : (entry <$> ch).*1 = key <$> ch.
Proof. rewrite <- list_fmap_compose. reflexivity. Qed.

Lemma chain_map_None k (ch : chain) : chain_map ch !! k = None <-> k ∉ (key <$> ch).
Proof. unfold chain_map. rewrite <- not_elem_of_list_to_map, entry_keys. tauto. Qed.

Lemma chain_get_spec k (ch : chain) : chain_get k ch = default NULL (chain_map ch !! k).
Proof.
  induction ch as [|a ch IH]; [reflexivity|].
  rewrite chain_map_cons. simpl.
  destruct (strcmp_cases k (key a)) as [[-> ->]|[Hne ->]].
  - rewrite lookup_insert_eq. reflexivity.
  - rewrite lookup_insert_ne by congruence. exact IH.
Qed.

(** The scan splits the chain at the first node that carries the key. *)
Lemma find_assoc_spec k (ch : chain) :
  forall before found, find_assoc k ch = (before, found) ->
    ch = before ++ found /\ (k ∉ key <$> before) /\
    match found with [] => True | cur :: _ => key cur = k end.
Proof.
  induction ch as [|a ch IH]; intros before found; simpl.
  - intros [= <- <-]. split; [reflexivity|]. split; [|exact I]. apply not_elem_of_nil.
  - destruct (strcmp_cases k (key a)) as [[-> ->]|[Hne ->]].
    + intros [= <- <-]. split; [reflexivity|]. split; [|reflexivity]. apply not_elem_of_nil.
    + destruct (find_assoc k ch) as [b f]. intros [= <- <-].
      destruct (IH b f eq_refl) as (-> & Hb & Hf).
      split; [reflexivity|]. split; [|exact Hf].
      rewrite fmap_cons, not_elem_of_cons. split; [congruence | exact Hb].
Qed.

Lemma find_assoc_found k (ch : chain) before found :
  find_assoc k ch = (before, found) ->
  (found = [] <-> chain_map ch !! k = None).
Proof.
  intros H. destruct (find_assoc_spec _ _ _ _ H) as (-> & Hb & Hf).
  rewrite chain_map_None, fmap_app, not_elem_of_app.
  destruct found as [|cur next]; simpl.
  - split; [|reflexivity]. intros _. split; [exact Hb | apply not_elem_of_nil].
  - split; [discriminate|]. intros [_ Hn]. exfalso. apply Hn. subst k. apply elem_of_cons. auto.
Qed.

(** The map of the chain after the update. *)
Lemma upsert_chain_map k v (ch : chain) :
  NoDup (key <$> ch) ->
  chain_map (upsert_chain k v ch) = map_upsert k v (chain_map ch).
Proof.
  intros Hnd. unfold upsert_chain, map_upsert.
  destruct (find_assoc k ch) as [before found] eqn:Hf.
  destruct (find_assoc_spec _ _ _ _ Hf) as (-> & Hb & Hk).
  apply chain_map_None in Hb.
  destruct found as [|cur next].
  - destruct (v =? NULL); reflexivity || (simpl negb; cbv iota).
    rewrite delete_id; [reflexivity|].
    rewrite app_nil_r. exact Hb.
  - subst k.
    rewrite fmap_app, fmap_cons in Hnd. apply NoDup_app in Hnd as (_ & _ & Hnd).
    apply NoDup_cons in Hnd as [Hn _]. apply chain_map_None in Hn.
    rewrite !chain_map_app, !chain_map_cons.
    destruct (v =? NULL); simpl negb; cbv iota.
    + rewrite chain_map_app, delete_union, delete_insert_id, delete_id by assumption.
      reflexivity.
    + rewrite chain_map_app, chain_map_cons. simpl key; simpl value.
      rewrite <- insert_union_r, <- insert_union_r by assumption.
      rewrite insert_insert_eq. reflexivity.
Qed.

(** A property of the nodes survives the update when the node of [k] with
    the new value has it. *)
Lemma upsert_chain_Forall (P : association -> Prop) k v (ch : chain) :
  Forall P ch -> (v <> NULL -> P {| key := k; value := v |}) ->
  Forall P (upsert_chain k v ch).
Proof.
  intros Hall Hnew. unfold upsert_chain.
  destruct (find_assoc k ch) as [before found] eqn:Hf.
  destruct (find_assoc_spec _ _ _ _ Hf) as (-> & Hb & Hk).
  destruct found as [|cur next]; destruct (Z.eqb_spec v NULL) as [->|Hv]; simpl negb; cbv iota.
  - exact Hall.
  - apply Forall_cons. auto.
  - apply Forall_app in Hall as [H1 H2]. apply Forall_cons in H2 as [_ H2].
    apply Forall_app. auto.
  - apply Forall_app in Hall as [H1 H2]. apply Forall_cons in H2 as [_ H2].
    apply Forall_app. split; [exact H1|]. apply Forall_cons. split; [|exact H2].
    rewrite Hk. auto.
Qed.

Lemma upsert_chain_NoDup k v (ch : chain) :
  NoDup (key <$> ch) -> NoDup (key <$> upsert_chain k v ch).
Proof.
  intros Hnd. unfold upsert_chain.
  destruct (find_assoc k ch) as [before found] eqn:Hf.
  destruct (find_assoc_spec _ _ _ _ Hf) as (-> & Hb & Hk).
  destruct found as [|cur next]; destruct (v =? NULL); simpl negb; cbv iota.
  - exact Hnd.
  - rewrite fmap_cons. apply NoDup_cons. split; [|exact Hnd].
    rewrite app_nil_r. exact Hb.
  - rewrite fmap_app in *. rewrite fmap_cons in Hnd.
    apply NoDup_app in Hnd as (H1 & H2 & H3). apply NoDup_cons in H3 as [_ H3].
    apply NoDup_app. split; [exact H1|]. split; [|exact H3].
    intros x Hx Hn. apply (H2 x Hx). apply elem_of_cons. auto.
  - rewrite fmap_app in *. rewrite fmap_cons in *. exact Hnd.
Qed.

Lemma set_value_absent k v (ch : chain) :
  k ∉ (key <$> ch) -> set_value k v <$> ch = ch.
Proof.
  induction ch as [|a l IH]; [reflexivity|].
  rewrite fmap_cons, not_elem_of_cons. intros [Hne Hl].
  rewrite !fmap_cons, IH by assumption. f_equal. unfold set_value.
  destruct (strcmp_cases k (key a)) as [[? _]|[_ ->]]; [congruence | reflexivity].
Qed.

(** An overwrite leaves every node where it is. *)
Lemma upsert_chain_in_place k v (ch : chain) :
  NoDup (key <$> ch) -> v <> NULL -> k ∈ (key <$> ch) ->
  upsert_chain k v ch = set_value k v <$> ch.
Proof.
  intros Hnd Hv Hin. unfold upsert_chain.
  destruct (find_assoc k ch) as [before found] eqn:Hf.
  destruct (find_assoc_spec _ _ _ _ Hf) as (-> & Hb & Hk).
  destruct found as [|cur next].
  - rewrite app_nil_r in Hin. contradiction.
  - destruct (Z.eqb_spec v NULL) as [|_]; [contradiction|]. simpl negb; cbv iota.
    rewrite fmap_app, fmap_cons in Hnd. apply NoDup_app in Hnd as (_ & _ & Hnd).
    apply NoDup_cons in Hnd as [Hn _]. rewrite Hk in Hn.
    rewrite fmap_app, fmap_cons, !set_value_absent by assumption.
    do 2 f_equal. unfold set_value.
    destruct (strcmp_cases k (key cur)) as [[_ ->]|[? _]]; [reflexivity | congruence].
Qed.

End Chains.

(** * Bucket arrays *)

Section Tables.

Lemma map_upsert_lookup k v (m : gmap string ptr) k' :
  map_upsert k v m !! k' =
    if decide (k = k') then (if v =? NULL then None else Some v) else m !! k'.
Proof.
  unfold map_upsert. destruct (v =? NULL), (decide (k = k')) as [->|Hne].
  - apply lookup_delete_eq.
  - apply lookup_delete_ne, Hne.
  - apply lookup_insert_eq.
  - apply lookup_insert_ne, Hne.
Qed.

Lemma elem_of_concat_lookup (tbl : list chain) a :
  a ∈ concat tbl -> exists i ch, tbl !! i = Some ch /\ a ∈ ch.
Proof.
  induction tbl as [|ch tbl IH]; simpl.
  - intros H. apply elem_of_nil in H. contradiction.
  - rewrite elem_of_app. intros [H|H].
    + exists O, ch. auto.
    + destruct (IH H) as (i & ch' & Hi & Ha). exists (S i), ch'. auto.
Qed.

(** When every node sits in the bucket that [g] assigns to its key, a key is
    looked up in its bucket alone. *)
Lemma concat_map_lookup (g : string -> nat) (tbl : list chain) k :
  (forall i ch a, tbl !! i = Some ch -> a ∈ ch -> g (key a) = i) ->
  chain_map (concat tbl) !! k = chain_map (tbl !!! g k) !! k.
Proof.
  revert g. induction tbl as [|ch tbl IH]; intros g Hg.
  - rewrite lookup_total_nil. reflexivity.
  - simpl concat. rewrite chain_map_app.
    destruct (g k) as [|j] eqn:Egk.
    + rewrite lookup_union_l; [reflexivity|].
      apply chain_map_None. intros Hin.
      apply list_elem_of_fmap in Hin as (a & -> & Ha).
      apply elem_of_concat_lookup in Ha as (i & ch' & Hi & Ha).
      specialize (Hg (S i) ch' a Hi Ha). congruence.
    + rewrite lookup_union_r.
      * rewrite (IH (fun x => Nat.pred (g x))).
        { rewrite Egk. reflexivity. }
        intros i ch' a Hi Ha. rewrite (Hg (S i) ch' a Hi Ha). reflexivity.
      * apply chain_map_None. intros Hin.
        apply list_elem_of_fmap in Hin as (a & -> & Ha).
        specialize (Hg O ch a eq_refl Ha). congruence.
Qed.

Lemma concat_NoDup (g : string -> nat) (tbl : list chain) :
  (forall i ch a, tbl !! i = Some ch -> a ∈ ch -> g (key a) = i) ->
  (forall i ch, tbl !! i = Some ch -> NoDup (key <$> ch)) ->
  NoDup (key <$> concat tbl).
Proof.
  revert g. induction tbl as [|ch tbl IH]; intros g Hg Hnd.
  - apply NoDup_nil_2.
  - simpl concat. rewrite fmap_app. apply NoDup_app. split; [|split].
    + apply (Hnd O). reflexivity.
    + intros x Hx Hx'.
      apply list_elem_of_fmap in Hx as (a & -> & Ha).
      apply list_elem_of_fmap in Hx' as (a' & E & Ha').
      apply elem_of_concat_lookup in Ha' as (i & ch' & Hi & Ha').
      pose proof (Hg O ch a eq_refl Ha) as H0.
      pose proof (Hg (S i) ch' a' Hi Ha') as H1. congruence.
    + apply (IH (fun x => Nat.pred (g x))).
      * intros i ch' a Hi Ha. rewrite (Hg (S i) ch' a Hi Ha). reflexivity.
      * intros i ch' Hi. apply (Hnd (S i)). exact Hi.
Qed.

Lemma concat_replicate_nil {A} n : concat (replicate n (@nil A)) = [].
Proof. induction n as [|n IH]; [reflexivity|exact IH]. Qed.

Lemma home_lt c k : 0 < c -> (home c k < Z.to_nat c)%nat.
Proof.
  intros Hc. unfold home.
  pose proof (Z.mod_pos_bound (_djb_hash k) c Hc). lia.
Qed.

Lemma inv_capacity_pos h : inv h -> 0 < capacity h < 2 ^ 32.
Proof.
  intros [(i & Hi & ->) _ _ _ _ _]. split.
  - apply Z.pow_pos_nonneg; lia.
  - apply Z.pow_lt_mono_r; lia.
Qed.

Lemma inv_bucket h k :
  inv h -> table h !! home (capacity h) k = Some (table h !!! home (capacity h) k).
Proof.
  intros Hinv. apply list_lookup_lookup_total_lt.
  rewrite (inv_len _ Hinv). apply home_lt. apply inv_capacity_pos, Hinv.
Qed.

Lemma to_map_lookup h k :
  inv h -> to_map h !! k = chain_map (table h !!! home (capacity h) k) !! k.
Proof.
  intros Hinv. apply (concat_map_lookup (home (capacity h))). apply (inv_home _ Hinv).
Qed.

Lemma all_keys_NoDup h : inv h -> NoDup (all_keys h).
Proof.
  intros Hinv. apply (concat_NoDup (home (capacity h))).
  - apply (inv_home _ Hinv).
  - apply (inv_nodup _ Hinv).
Qed.

Lemma all_keys_to_map h k : k ∈ all_keys h <-> is_Some (to_map h !! k).
Proof.
  unfold all_keys, to_map. fold (chain_map (concat (table h))).
  rewrite <- not_eq_None_Some, chain_map_None.
  destruct (decide (k ∈ key <$> concat (table h))); tauto.
Qed.

(** [hash_get] reads the finite map. *)
Lemma hash_get_spec h k :
  inv h -> hash_get h k = Some (default NULL (to_map h !! k)).
Proof.
  intros Hinv. unfold hash_get.
  pose proof (inv_capacity_pos _ Hinv) as Hc.
  destruct (Z.eqb_spec (capacity h) 0) as [E|_]; [lia|].
  fold (home (capacity h) k). rewrite (inv_bucket _ _ Hinv). simpl.
  rewrite chain_get_spec, to_map_lookup by assumption. reflexivity.
Qed.

End Tables.

(** * Insertion into a bucket *)

Section InsertInBucket.

Lemma insert_in_bucket_eq h k v (ch : chain) :
  capacity h <> 0 -> table h !! home (capacity h) k = Some ch ->
  insert_in_bucket h k v =
    Some {| table := <[home (capacity h) k := upsert_chain k v ch]> (table h);
            capacity := capacity h;
            num_elems := count_after k v ch (num_elems h) |}.
Proof.
  intros Hc Hb. unfold insert_in_bucket, upsert_chain, count_after.
  destruct (Z.eqb_spec (capacity h) 0) as [|_]; [contradiction|].
  fold (home (capacity h) k). rewrite Hb. simpl.
  destruct (find_assoc k ch) as [before found] eqn:Hf.
  pose proof (find_assoc_found _ _ _ _ Hf) as Hfound.
  destruct found as [|cur next].
  - rewrite (proj1 Hfound eq_refl).
    destruct (v =? NULL); simpl negb; cbv iota; [|reflexivity].
    rewrite list_insert_id by assumption. destruct h; reflexivity.
  - destruct (chain_map ch !! k) eqn:E.
    + destruct (v =? NULL); reflexivity.
    + destruct Hfound as [_ Hfound]. discriminate (Hfound eq_refl).
Qed.

Lemma uint_small z : 0 <= z < 2 ^ 32 -> uint z = z.
Proof. apply Z.mod_small. Qed.

Lemma uint_succ z : uint (uint z + 1) = uint (z + 1).
Proof. unfold uint. rewrite Zplus_mod_idemp_l. reflexivity. Qed.

Lemma uint_pred z : uint (uint z - 1) = uint (z - 1).
Proof. unfold uint. rewrite Zminus_mod_idemp_l. reflexivity. Qed.

(** [num_elems] follows the size of the finite map. *)
Lemma count_after_size k v (m : gmap string ptr) (o : option ptr) n :
  o = m !! k -> n = uint (Z.of_nat (size m)) ->
  match o with
  | Some _ => if v =? NULL then uint (n - 1) else n
  | None => if v =? NULL then n else uint (n + 1)
  end = uint (Z.of_nat (size (map_upsert k v m))).
Proof.
  intros -> ->. unfold map_upsert.
  destruct (m !! k) as [x|] eqn:E; destruct (v =? NULL).
  - rewrite uint_pred, map_size_delete_Some by eauto.
    assert (size m <> O).
    { intros Hz. apply map_size_empty_inv in Hz. subst m. rewrite lookup_empty in E. discriminate. }
    f_equal. lia.
  - rewrite map_size_insert_Some by eauto. reflexivity.
  - rewrite map_size_delete_None by assumption. reflexivity.
  - rewrite uint_succ, map_size_insert_None by assumption. f_equal. lia.
Qed.

(** The part of [hash_insert] after the load-factor test always returns on a
    table that satisfies the invariant, and updates the finite map. *)
Lemma insert_in_bucket_spec h k v :
  inv h ->
  exists h', insert_in_bucket h k v = Some h'
    /\ inv h'
    /\ capacity h' = capacity h
    /\ to_map h' = map_upsert k v (to_map h)
    /\ table h' = <[home (capacity h) k :=
                      upsert_chain k v (table h !!! home (capacity h) k)]> (table h).
Proof.
  intros Hinv.
  pose proof (inv_capacity_pos _ Hinv) as Hc.
  pose proof (inv_bucket h k Hinv) as Hb.
  set (idx := home (capacity h) k) in *. set (ch := table h !!! idx) in *.
  eexists. split; [apply insert_in_bucket_eq; [lia | exact Hb]|].
  fold idx.
  set (h' := {| table := _ |}).
  assert (Hlen : (idx < length (table h))%nat) by (eapply lookup_lt_Some, Hb).
  assert (Hrow : forall i ch', table h' !! i = Some ch' ->
            (i = idx /\ ch' = upsert_chain k v ch) \/ (i <> idx /\ table h !! i = Some ch')).
  { intros i ch' H. apply list_lookup_insert_Some in H. intuition (subst; auto). }
  assert (Hhome : forall i ch' a, table h' !! i = Some ch' -> a ∈ ch' ->
            home (capacity h) (key a) = i).
  { intros i ch' a Hi Ha. destruct (Hrow _ _ Hi) as [[-> ->]|[_ Hi']].
    - revert a Ha. apply Forall_forall. apply upsert_chain_Forall.
      + apply Forall_forall. intros a Ha. apply (inv_home _ Hinv _ _ _ Hb Ha).
      + reflexivity.
    - apply (inv_home _ Hinv _ _ _ Hi' Ha). }
  assert (Hmap : to_map h' = map_upsert k v (to_map h)).
  { apply map_eq. intros k'.
    unfold to_map at 1. fold (chain_map (concat (table h'))).
    rewrite (concat_map_lookup (home (capacity h)) _ _ Hhome).
    rewrite map_upsert_lookup, (to_map_lookup h k' Hinv).
    simpl table. fold idx.
    destruct (decide (home (capacity h) k' = idx)) as [E|NE].
    - rewrite E, list_lookup_total_insert_eq by assumption.
      rewrite upsert_chain_map by apply (inv_nodup _ Hinv _ _ Hb).
      apply map_upsert_lookup.
    - rewrite list_lookup_total_insert_ne by congruence.
      destruct (decide (k = k')) as [->|]; [contradiction|reflexivity]. }
  split; [|split; [reflexivity|split; [exact Hmap|reflexivity]]].
  split.
  - exact (inv_pow2 _ Hinv).
  - simpl. rewrite length_insert. exact (inv_len _ Hinv).
  - exact Hhome.
  - intros i ch' Hi. destruct (Hrow _ _ Hi) as [[-> ->]|[_ Hi']].
    + apply upsert_chain_NoDup, (inv_nodup _ Hinv _ _ Hb).
    + apply (inv_nodup _ Hinv _ _ Hi').
  - intros i ch' a Hi Ha. destruct (Hrow _ _ Hi) as [[-> ->]|[_ Hi']].
    + revert a Ha. apply Forall_forall. apply upsert_chain_Forall.
      * apply Forall_forall. intros a Ha. apply (inv_nonnull _ Hinv _ _ _ Hb Ha).
      * auto.
    + apply (inv_nonnull _ Hinv _ _ _ Hi' Ha).
  - rewrite Hmap. simpl num_elems. unfold count_after.
    apply count_after_size.
    + rewrite (to_map_lookup h k Hinv). reflexivity.
    + exact (inv_count _ Hinv).
Qed.

End InsertInBucket.

(** * Resizing and insertion *)

Section Resize.

Lemma hash_insert_unfold depth h k v :
  hash_insert depth h k v = grow depth h ≫= fun h1 => insert_in_bucket h1 k v.
Proof. destruct depth; reflexivity. Qed.

Lemma insert_in_bucket_cap0 h k v : capacity h = 0 -> insert_in_bucket h k v = None.
Proof. intros E. unfold insert_in_bucket. rewrite E. reflexivity. Qed.

(** With depth [0] an insertion that finds the load factor over the
    threshold has no result. *)
Lemma hash_insert_0_over h k v : over_threshold h = true -> hash_insert 0 h k v = None.
Proof. intros E. simpl. rewrite E. reflexivity. Qed.

(** On a table without buckets the division by the capacity is undefined. *)
Lemma hash_insert_cap0 depth h k v : capacity h = 0 -> hash_insert depth h k v = None.
Proof.
  intros E. rewrite hash_insert_unfold. unfold grow.
  destruct (over_threshold h); [|simpl; apply insert_in_bucket_cap0, E].
  destruct depth as [|d]; [reflexivity|].
  unfold _hash_resize. rewrite E.
  destruct (Z.of_nat (length (table h)) <? 0); [reflexivity|].
  simpl. apply insert_in_bucket_cap0. reflexivity.
Qed.

Lemma rehash_chain_app ins (l1 l2 : chain) h :
  rehash_chain ins (l1 ++ l2) h = rehash_chain ins l1 h ≫= rehash_chain ins l2.
Proof.
  revert h. induction l1 as [|a l1 IH]; intros h; [reflexivity|].
  simpl. destruct (ins h (key a) (value a)) as [h'|]; [apply IH | reflexivity].
Qed.

(** The two loops of [_hash_resize] walk the nodes of the old array in
    order. *)
Lemma rehash_table_concat ins (tbl : list chain) h :
  rehash_table ins tbl h = rehash_chain ins (concat tbl) h.
Proof.
  revert h. induction tbl as [|ch tbl IH]; intros h; [reflexivity|].
  simpl. rewrite rehash_chain_app.
  destruct (rehash_chain ins ch h) as [h'|]; [apply IH | reflexivity].
Qed.

Lemma map_upsert_nonnull k v m : v <> NULL -> map_upsert k v m = <[k := v]> m.
Proof. intros Hv. unfold map_upsert. destruct (Z.eqb_spec v NULL); [contradiction|reflexivity]. Qed.

Lemma rehash_chain_spec ins (l : chain) h h' :
  insert_ok ins -> inv h ->
  Forall (fun a => value a <> NULL) l -> NoDup (key <$> l) ->
  rehash_chain ins l h = Some h' ->
  inv h' /\ capacity h <= capacity h' /\ to_map h' = chain_map l ∪ to_map h.
Proof.
  intros [_ Hins]. revert h. induction l as [|a l IH]; intros h Hinv Hnn Hnd; simpl.
  - intros [= <-]. split; [assumption|]. split; [lia|].
    unfold chain_map. simpl. rewrite (left_id_L ∅ (∪)). reflexivity.
  - destruct (ins h (key a) (value a)) as [h1|] eqn:E; [|discriminate]. simpl.
    apply Forall_cons in Hnn as [Ha Hnn]. rewrite fmap_cons in Hnd.
    apply NoDup_cons in Hnd as [Hn Hnd].
    destruct (Hins _ _ _ _ Hinv E) as (Hinv1 & Hc1 & Hm1).
    intros H. destruct (IH h1 Hinv1 Hnn Hnd H) as (Hinv' & Hc' & Hm').
    split; [assumption|]. split; [lia|].
    rewrite Hm', Hm1, map_upsert_nonnull, chain_map_cons by assumption.
    rewrite <- insert_union_l. symmetry. apply insert_union_r.
    apply chain_map_None, Hn.
Qed.

Lemma inv_init h i : 4 <= i <= 31 -> inv (_hash_table_init h (2 ^ i)).
Proof.
  intros Hi.
  assert (Hrow : forall j (ch : chain),
            replicate (Z.to_nat (2 ^ i)) [] !! j = Some ch -> ch = []).
  { intros j ch H. apply lookup_replicate in H as [-> _]. reflexivity. }
  split; simpl.
  - eauto.
  - apply length_replicate.
  - intros j ch a H Ha. rewrite (Hrow _ _ H) in Ha. apply elem_of_nil in Ha. contradiction.
  - intros j ch H. rewrite (Hrow _ _ H). apply NoDup_nil_2.
  - intros j ch a H Ha. rewrite (Hrow _ _ H) in Ha. apply elem_of_nil in Ha. contradiction.
  - unfold to_map. simpl. rewrite concat_replicate_nil. reflexivity.
Qed.

Lemma to_map_init h c : to_map (_hash_table_init h c) = ∅.
Proof. unfold to_map. simpl. rewrite concat_replicate_nil. reflexivity. Qed.

Lemma inv_old_nodes h :
  inv h -> Forall (fun a => value a <> NULL) (concat (table h)).
Proof.
  intros Hinv. apply Forall_forall. intros a Ha.
  apply elem_of_concat_lookup in Ha as (i & ch & Hi & Ha).
  apply (inv_nonnull _ Hinv _ _ _ Hi Ha).
Qed.

Lemma inv_take h : inv h -> take (Z.to_nat (capacity h)) (table h) = table h.
Proof. intros Hinv. apply take_ge. rewrite (inv_len _ Hinv). lia. Qed.

Lemma inv_length_check h : inv h -> (Z.of_nat (length (table h)) <? capacity h) = false.
Proof.
  intros Hinv. apply Z.ltb_ge. rewrite (inv_len _ Hinv).
  pose proof (inv_capacity_pos _ Hinv). lia.
Qed.

(** A resize that returns keeps the map and at least doubles the capacity,
    unless the doubled capacity wrapped around to zero. *)
Lemma _hash_resize_spec ins h h1 :
  insert_ok ins -> inv h -> _hash_resize ins h = Some h1 ->
  (capacity h = 2 ^ 31 /\ capacity h1 = 0) \/
  (inv h1 /\ 2 * capacity h <= capacity h1 /\ to_map h1 = to_map h).
Proof.
  intros Hok Hinv. unfold _hash_resize.
  rewrite inv_length_check, inv_take, rehash_table_concat by assumption.
  destruct (inv_pow2 _ Hinv) as (i & Hi & Ec). rewrite Ec.
  destruct (decide (i = 31)) as [->|Hne].
  - change (uint (2 ^ 31 * 2)) with 0.
    destruct (concat (table h)) as [|a l]; simpl.
    + intros [= <-]. left. split; reflexivity.
    + rewrite (proj1 Hok) by reflexivity. discriminate.
  - replace (uint (2 ^ i * 2)) with (2 ^ (i + 1)).
    2:{ rewrite Z.pow_add_r by lia. symmetry. apply uint_small.
        assert (2 ^ i <= 2 ^ 30) by (apply Z.pow_le_mono_r; lia).
        assert (0 < 2 ^ i) by (apply Z.pow_pos_nonneg; lia).
        change (2 ^ 1) with 2. change (2 ^ 30) with 1073741824 in *.
        change (2 ^ 32) with 4294967296. lia. }
    intros H. right.
    apply rehash_chain_spec in H as (Hinv1 & Hc1 & Hm1); auto.
    + split; [assumption|]. simpl in Hc1. rewrite Z.pow_add_r in Hc1 by lia.
      split; [lia|]. rewrite Hm1, to_map_init, (right_id_L ∅ (∪)). reflexivity.
    + apply inv_init. lia.
    + apply inv_old_nodes, Hinv.
    + apply all_keys_NoDup, Hinv.
Qed.

(** Whatever the depth, an insertion that returns keeps the invariant and
    updates the finite map. *)
Lemma hash_insert_ok depth : insert_ok (hash_insert depth).
Proof.
  induction depth as [|d IH]; (split; [intros h k v; apply hash_insert_cap0|]);
    intros h k v h' Hinv; rewrite hash_insert_unfold; unfold grow.
  - destruct (over_threshold h); [discriminate|]. simpl. intros H.
    destruct (insert_in_bucket_spec h k v Hinv) as (h2 & E & Hinv2 & Hc & Hm & _).
    rewrite E in H. injection H as <-. split; [assumption|]. split; [lia|assumption].
  - destruct (over_threshold h).
    + destruct (_hash_resize (hash_insert d) h) as [h1|] eqn:Er; [|discriminate]. simpl.
      destruct (_hash_resize_spec _ _ _ IH Hinv Er) as [[_ E0]|(Hinv1 & Hc1 & Hm1)].
      * rewrite insert_in_bucket_cap0 by assumption. discriminate.
      * intros H.
        destruct (insert_in_bucket_spec h1 k v Hinv1) as (h2 & E & Hinv2 & Hc & Hm & _).
        rewrite E in H. injection H as <-. split; [assumption|].
        pose proof (inv_capacity_pos _ Hinv). split; [lia|]. rewrite Hm, Hm1. reflexivity.
    + simpl. intros H.
      destruct (insert_in_bucket_spec h k v Hinv) as (h2 & E & Hinv2 & Hc & Hm & _).
      rewrite E in H. injection H as <-. split; [assumption|]. split; [lia|assumption].
Qed.

End Resize.

(** * The load factor along the life of a table *)

Section LoadFactor.

Lemma num_elems_range h : inv h -> 0 <= num_elems h < 2 ^ 32.
Proof. intros Hinv. rewrite (inv_count _ Hinv). apply Z.mod_pos_bound. reflexivity. Qed.

Lemma num_elems_le_size h : inv h -> num_elems h <= Z.of_nat (size (to_map h)).
Proof. intros Hinv. rewrite (inv_count _ Hinv). apply Z.mod_le; lia. Qed.

Lemma over_threshold_false h :
  inv h -> num_elems h <= 5 * capacity h -> over_threshold h = false.
Proof.
  intros Hinv Hle. pose proof (num_elems_range _ Hinv).
  destruct (inv_pow2 _ Hinv) as (i & Hi & Ec).
  change (over_threshold h) with (load_over (num_elems h) (capacity h)).
  rewrite Ec in *. apply load_over_false; lia.
Qed.

Lemma over_threshold_true h :
  inv h -> 6 * capacity h <= num_elems h -> over_threshold h = true.
Proof.
  intros Hinv Hle. pose proof (num_elems_range _ Hinv).
  destruct (inv_pow2 _ Hinv) as (i & Hi & Ec).
  change (over_threshold h) with (load_over (num_elems h) (capacity h)).
  rewrite Ec in *. apply load_over_true; lia.
Qed.

Lemma over_threshold_exact h :
  inv h -> num_elems h < 2 ^ 24 ->
  over_threshold h = (5 * capacity h <? num_elems h).
Proof.
  intros Hinv Hlt. pose proof (num_elems_range _ Hinv).
  destruct (inv_pow2 _ Hinv) as (i & Hi & Ec).
  change (over_threshold h) with (load_over (num_elems h) (capacity h)).
  rewrite Ec in *. apply load_over_exact; lia.
Qed.

Lemma capacity_cases h :
  inv h -> capacity h <= 2 ^ 30 -> capacity h = 2 ^ 30 \/ (16 <= capacity h <= 2 ^ 29).
Proof.
  intros Hinv Hle. destruct (inv_pow2 _ Hinv) as (i & Hi & Ec). rewrite Ec in *.
  destruct (decide (i = 30)) as [->|]; [left; reflexivity|right].
  assert (i < 31).
  { destruct (Z_lt_le_dec i 31); [assumption|].
    assert (2 ^ 31 <= 2 ^ i) by (apply Z.pow_le_mono_r; lia). lia. }
  split.
  - change 16 with (2 ^ 4). apply Z.pow_le_mono_r; lia.
  - apply Z.pow_le_mono_r; lia.
Qed.

(** Below [2^30] buckets the counter is the number of stored keys. *)
Lemma num_elems_size h :
  inv h -> inv_load h -> capacity h < 2 ^ 30 ->
  num_elems h = Z.of_nat (size (to_map h)).
Proof.
  intros Hinv Hload Hlt. rewrite (inv_count _ Hinv). apply uint_small.
  pose proof (load_size _ Hload Hlt).
  destruct (capacity_cases h Hinv (load_cap _ Hload)) as [|[_ ?]]; [lia|].
  change (2 ^ 29) with 536870912 in *. change (2 ^ 32) with 4294967296. lia.
Qed.

Lemma map_upsert_size_le k v (m : gmap string ptr) :
  (size (map_upsert k v m) <= S (size m))%nat.
Proof.
  unfold map_upsert. destruct (v =? NULL).
  - rewrite map_size_delete. destruct (m !! k); simpl; lia.
  - rewrite map_size_insert. destruct (m !! k); simpl; lia.
Qed.

Lemma size_to_map h : inv h -> size (to_map h) = length (concat (table h)).
Proof.
  intros Hinv. unfold to_map. rewrite map_size_list_to_map, length_fmap; [reflexivity|].
  rewrite entry_keys. apply all_keys_NoDup, Hinv.
Qed.

(** An insertion that finds the load factor within the threshold is the
    insertion into the bucket, at every depth. *)
Lemma hash_insert_no_resize depth h k v :
  over_threshold h = false -> hash_insert depth h k v = insert_in_bucket h k v.
Proof. intros E. rewrite hash_insert_unfold. unfold grow. rewrite E. reflexivity. Qed.

(** Re-insertion into a table that has room for all the nodes never resizes:
    it returns at every depth, depth [0] included, and keeps the capacity. *)
Lemma rehash_no_resize (l : chain) h :
  inv h -> Z.of_nat (size (to_map h)) + Z.of_nat (length l) <= 5 * capacity h ->
  exists h', (forall depth, rehash_chain (hash_insert depth) l h = Some h')
    /\ capacity h' = capacity h.
Proof.
  revert h. induction l as [|a l IH]; intros h Hinv Hle.
  - exists h. split; [reflexivity|reflexivity].
  - assert (Hover : over_threshold h = false).
    { apply over_threshold_false; [assumption|].
      pose proof (num_elems_le_size _ Hinv). simpl in Hle. lia. }
    destruct (insert_in_bucket_spec h (key a) (value a) Hinv) as (h1 & E & Hinv1 & Hc1 & Hm1 & _).
    destruct (IH h1 Hinv1) as (h' & Hall & Hc').
    { rewrite Hc1, Hm1. pose proof (map_upsert_size_le (key a) (value a) (to_map h)).
      simpl in Hle. lia. }
    exists h'. split; [|lia].
    intros depth. simpl. rewrite hash_insert_no_resize, E by assumption. simpl. apply Hall.
Qed.

(** A resize of a table that holds at most ten keys per bucket returns
    without calling itself, and doubles the capacity. *)
Lemma _hash_resize_total h :
  inv h -> capacity h < 2 ^ 31 -> Z.of_nat (size (to_map h)) <= 10 * capacity h ->
  exists h1, (forall depth, _hash_resize (hash_insert depth) h = Some h1)
    /\ inv h1 /\ capacity h1 = 2 * capacity h /\ to_map h1 = to_map h.
Proof.
  intros Hinv Hcap Hsize.
  destruct (inv_pow2 _ Hinv) as (i & Hi & Ec).
  assert (Hi' : i < 31).
  { destruct (Z_lt_le_dec i 31); [assumption|].
    assert (2 ^ 31 <= 2 ^ i) by (apply Z.pow_le_mono_r; lia). lia. }
  assert (E2 : uint (capacity h * 2) = 2 ^ (i + 1)).
  { rewrite Ec, Z.pow_add_r by lia. apply uint_small.
    assert (0 < 2 ^ i) by (apply Z.pow_pos_nonneg; lia).
    change (2 ^ 1) with 2. change (2 ^ 31) with 2147483648 in *.
    change (2 ^ 32) with 4294967296. lia. }
  set (h0 := _hash_table_init h (2 ^ (i + 1))).
  assert (Hinv0 : inv h0) by (apply inv_init; lia).
  destruct (rehash_no_resize (concat (table h)) h0 Hinv0) as (h1 & Hall & Hc1).
  { unfold h0. rewrite to_map_init, map_size_empty, <- size_to_map by assumption.
    simpl capacity. rewrite Z.pow_add_r by lia. change (2 ^ 1) with 2. lia. }
  assert (Hres : forall depth, _hash_resize (hash_insert depth) h = Some h1).
  { intros depth. unfold _hash_resize.
    rewrite inv_length_check, inv_take, rehash_table_concat, E2 by assumption.
    apply Hall. }
  exists h1. split; [exact Hres|].
  destruct (_hash_resize_spec _ _ _ (hash_insert_ok O) Hinv (Hres O))
    as [[_ E0]|(Hinv1 & _ & Hm1)].
  - pose proof (inv_capacity_pos _ Hinv0). simpl in Hc1. unfold h0 in *. simpl in *. lia.
  - split; [assumption|]. split; [|assumption].
    rewrite Hc1. unfold h0. simpl. rewrite Ec, Z.pow_add_r by lia. change (2 ^ 1) with 2. lia.
Qed.

(** The first statement of [hash_insert] on a table that satisfies the
    invariants: it returns with one level of resize at most. *)
Lemma grow_total h :
  inv h -> inv_load h ->
  exists h1, (forall depth, grow (S depth) h = Some h1)
    /\ (over_threshold h = false -> h1 = h)
    /\ inv h1 /\ to_map h1 = to_map h
    /\ capacity h1 = (if over_threshold h then 2 * capacity h else capacity h).
Proof.
  intros Hinv Hload. unfold grow.
  destruct (over_threshold h) eqn:Hover.
  - assert (Hn : 5 * capacity h < num_elems h).
    { destruct (Z_lt_le_dec (5 * capacity h) (num_elems h)) as [|Hle]; [assumption|].
      rewrite over_threshold_false in Hover by assumption. discriminate. }
    pose proof (num_elems_range _ Hinv) as Hr.
    destruct (capacity_cases h Hinv (load_cap _ Hload)) as [E|[Hlo Hhi]].
    { rewrite E in Hn. change (2 ^ 30) with 1073741824 in Hn.
      change (2 ^ 32) with 4294967296 in Hr. lia. }
    change (2 ^ 29) with 536870912 in Hhi.
    destruct (_hash_resize_total h Hinv) as (h1 & Hall & Hinv1 & Hc1 & Hm1).
    { change (2 ^ 31) with 2147483648. lia. }
    { assert (capacity h < 2 ^ 30) as Hlt by (change (2 ^ 30) with 1073741824; lia).
      pose proof (load_size _ Hload Hlt). lia. }
    exists h1. split; [exact Hall|]. split; [discriminate|]. auto.
  - exists h. split; [reflexivity|]. auto.
Qed.

End LoadFactor.

(** * One call of [hash_insert] *)

Section Step.

Lemma over_threshold_true_inv h :
  inv h -> inv_load h -> over_threshold h = true ->
  5 * capacity h < num_elems h /\ capacity h <= 2 ^ 29.
Proof.
  intros Hinv Hload Hover.
  assert (Hn : 5 * capacity h < num_elems h).
  { destruct (Z_lt_le_dec (5 * capacity h) (num_elems h)) as [|Hle]; [assumption|].
    rewrite over_threshold_false in Hover by assumption. discriminate. }
  split; [assumption|].
  pose proof (num_elems_range _ Hinv) as Hr.
  destruct (capacity_cases h Hinv (load_cap _ Hload)) as [E|[_ Hhi]]; [|assumption].
  rewrite E in Hn. change (2 ^ 30) with 1073741824 in Hn.
  change (2 ^ 32) with 4294967296 in Hr. lia.
Qed.

Lemma over_threshold_false_inv h :
  inv h -> over_threshold h = false -> num_elems h < 6 * capacity h.
Proof.
  intros Hinv Hover.
  destruct (Z_lt_le_dec (num_elems h) (6 * capacity h)) as [|Hle]; [assumption|].
  rewrite over_threshold_true in Hover by assumption. discriminate.
Qed.

(** Every call of [hash_insert] on a table that satisfies the invariants
    returns, and the table it leaves satisfies them. *)
Lemma hash_insert_total h k v :
  inv h -> inv_load h -> inv_tight h ->
  exists h1 h', insert_result h k v h1 h'.
Proof.
  intros Hinv Hload Htight.
  destruct (grow_total h Hinv Hload) as (h1 & Hgrow & Hsame & Hinv1 & Hm1 & Hc1).
  destruct (insert_in_bucket_spec h1 k v Hinv1) as (h' & E & Hinv' & Hc' & Hm' & Ht').
  exists h1, h'.
  pose proof (map_upsert_size_le k v (to_map h)) as Hsz.
  pose proof (inv_capacity_pos _ Hinv) as Hpos.
  rewrite Hm1 in Hm'.
  split; try assumption.
  - (* the coarse bound *)
    split; rewrite Hc', Hc1, ?Hm'.
    + destruct (over_threshold h) eqn:Hover.
      * destruct (over_threshold_true_inv h Hinv Hload Hover) as [_ Hhi].
        change (2 ^ 29) with 536870912 in Hhi. change (2 ^ 30) with 1073741824. lia.
      * apply (load_cap _ Hload).
    + destruct (over_threshold h) eqn:Hover.
      * destruct (over_threshold_true_inv h Hinv Hload Hover) as [_ Hhi].
        intros _.
        assert (Hlt : capacity h < 2 ^ 30).
        { change (2 ^ 29) with 536870912 in Hhi. change (2 ^ 30) with 1073741824. lia. }
        pose proof (load_size _ Hload Hlt). lia.
      * intros Hlt. pose proof (over_threshold_false_inv h Hinv Hover).
        rewrite (num_elems_size h Hinv Hload Hlt) in *. lia.
  - (* the tight bound *)
    unfold inv_tight. rewrite Hc', Hc1, Hm'. intros Hcap.
    assert (Hcap0 : capacity h <= 2 ^ 21) by (destruct (over_threshold h); lia).
    specialize (Htight Hcap0).
    assert (Hlt : capacity h < 2 ^ 30).
    { change (2 ^ 21) with 2097152 in Hcap0. change (2 ^ 30) with 1073741824. lia. }
    pose proof (num_elems_size h Hinv Hload Hlt) as En.
    assert (Hex : over_threshold h = (5 * capacity h <? num_elems h)).
    { apply over_threshold_exact; [assumption|].
      change (2 ^ 21) with 2097152 in Hcap0. change (2 ^ 24) with 16777216. lia. }
    rewrite Hex in *.
    destruct (Z.ltb_spec (5 * capacity h) (num_elems h)); lia.
Qed.

Lemma insert_result_returns h k v h1 h' :
  insert_result h k v h1 h' -> forall depth, hash_insert (S depth) h k v = Some h'.
Proof.
  intros R depth. rewrite hash_insert_unfold, (res_grow _ _ _ _ _ R). simpl.
  apply (res_bucket _ _ _ _ _ R).
Qed.

(** The result of a call does not depend on the depth allowed. *)
Lemma insert_result_unique h k v h1 h' depth h'' :
  insert_result h k v h1 h' -> hash_insert depth h k v = Some h'' -> h'' = h'.
Proof.
  intros R H. destruct depth as [|d].
  - rewrite hash_insert_unfold in H. unfold grow in H.
    destruct (over_threshold h) eqn:Hover; [discriminate|]. simpl in H.
    rewrite <- (res_same _ _ _ _ _ R Hover), (res_bucket _ _ _ _ _ R) in H. congruence.
  - rewrite (insert_result_returns _ _ _ _ _ R) in H. congruence.
Qed.

Lemma inv_create : inv hash_create /\ inv_load hash_create /\ inv_tight hash_create.
Proof.
  split; [unfold hash_create; change INITIAL_CAPACITY with (2 ^ 4); apply inv_init; lia|].
  split; [split|]; unfold inv_tight, hash_create;
    rewrite ?to_map_init, ?map_size_empty; simpl; unfold INITIAL_CAPACITY; lia.
Qed.

(** The invariants hold of every table a program can obtain. *)
Lemma reachable_inv h : reachable h -> inv h /\ inv_load h /\ inv_tight h.
Proof.
  induction 1 as [|depth h o h' r _ (Hinv & Hload & Htight) Hstep]; [apply inv_create|].
  destruct o as [k v|k]; simpl in Hstep.
  - destruct (hash_insert depth h k v) as [h2|] eqn:E; [|discriminate].
    simpl in Hstep. injection Hstep as -> _.
    destruct (hash_insert_total h k v Hinv Hload Htight) as (h1 & h3 & R).
    rewrite (insert_result_unique _ _ _ _ _ _ _ R E).
    split; [apply (res_inv _ _ _ _ _ R)|].
    split; [apply (res_load _ _ _ _ _ R) | apply (res_tight _ _ _ _ _ R)].
  - destruct (hash_get h k); [|discriminate]. simpl in Hstep. injection Hstep as <- _.
    auto.
Qed.

(** Hence every call of [hash_insert] on such a table returns. *)
Lemma reachable_insert_result h k v :
  reachable h -> exists h1 h', insert_result h k v h1 h'.
Proof.
  intros Hr. destruct (reachable_inv h Hr) as (Hinv & Hload & Htight).
  apply hash_insert_total; assumption.
Qed.

End Step.

(** * Sequences of calls *)

Section Calls.

Lemma reachable_insert depth h k v h' :
  reachable h -> hash_insert depth h k v = Some h' -> reachable h'.
Proof.
  intros Hr E. apply (reachable_step depth h (Insert k v) h' NULL Hr).
  simpl. rewrite E. reflexivity.
Qed.

Lemma reachable_insert_all depth kvs h h' :
  reachable h -> insert_all depth h kvs = Some h' -> reachable h'.
Proof.
  revert h. induction kvs as [|[k v] kvs IH]; intros h Hr; simpl.
  - intros [= <-]. exact Hr.
  - destruct (hash_insert depth h k v) as [h1|] eqn:E; [|discriminate]. simpl.
    apply IH. eapply reachable_insert; eassumption.
Qed.

Lemma reachable_sample n :
  is_Some (insert_all 1 hash_create (sample_pairs n)) -> reachable (sample_table n).
Proof.
  intros [h E]. unfold sample_table. rewrite E. simpl.
  eapply reachable_insert_all; [apply reachable_create | exact E].
Qed.

Lemma reachable_get h k : reachable h -> hash_get h k = Some (default NULL (to_map h !! k)).
Proof. intros Hr. apply hash_get_spec, reachable_inv, Hr. Qed.

Lemma hash_get_absent h k : inv h -> k ∉ all_keys h -> hash_get h k = Some NULL.
Proof.
  intros Hinv Hk. rewrite hash_get_spec by assumption.
  rewrite all_keys_to_map, <- eq_None_not_Some in Hk. rewrite Hk. reflexivity.
Qed.

Lemma num_elems_eq h h' : inv h -> inv h' -> to_map h' = to_map h -> num_elems h' = num_elems h.
Proof. intros H H' E. rewrite (inv_count _ H), (inv_count _ H'), E. reflexivity. Qed.

Lemma hash_get_eq h h' k : inv h -> inv h' -> to_map h' = to_map h -> hash_get h' k = hash_get h k.
Proof. intros H H' E. rewrite !hash_get_spec, E by assumption. reflexivity. Qed.

Lemma all_keys_length h : inv h -> length (all_keys h) = size (to_map h).
Proof. intros Hinv. unfold all_keys. rewrite length_fmap. symmetry. apply size_to_map, Hinv. Qed.

(** A node is in the table exactly when the map of the table sends its
    key to its value. *)
Lemma elem_of_nodes h a :
  inv h -> a ∈ concat (table h) <-> to_map h !! key a = Some (value a).
Proof.
  intros Hinv. unfold to_map.
  rewrite <- elem_of_list_to_map by (rewrite entry_keys; apply all_keys_NoDup, Hinv).
  rewrite list_elem_of_fmap. split.
  - intros Ha. exists a. auto.
  - intros (a' & E & Ha'). destruct a, a'. injection E as -> ->. exact Ha'.
Qed.

End Calls.

(** * The calls of [free] of an insertion *)

Section Traces.

Lemma insert_in_bucket_traced_fst h k v :
  fst <$> insert_in_bucket_traced h k v = insert_in_bucket h k v.
Proof.
  unfold insert_in_bucket_traced, insert_in_bucket.
  destruct (capacity h =? 0); [reflexivity|].
  destruct (table h !! Z.to_nat (_djb_hash k mod capacity h)) as [head|]; [|reflexivity].
  simpl. destruct (find_assoc k head) as [before [|cur next]];
    destruct (negb (v =? NULL)); reflexivity.
Qed.

(** An insertion of a value other than [NULL] frees nothing after the
    load-factor test. *)
Lemma insert_in_bucket_traced_nonnull h k v :
  v <> NULL ->
  insert_in_bucket_traced h k v = (fun h' => (h', [])) <$> insert_in_bucket h k v.
Proof.
  intros Hv. unfold insert_in_bucket_traced, insert_in_bucket.
  destruct (capacity h =? 0); [reflexivity|].
  destruct (table h !! Z.to_nat (_djb_hash k mod capacity h)) as [head|]; [|reflexivity].
  simpl. destruct (Z.eqb_spec v NULL) as [|_]; [contradiction|].
  destruct (find_assoc k head) as [before [|cur next]]; reflexivity.
Qed.

Lemma rehash_chain_traced_fst insT ins (l : chain) :
  (forall h k v, fst <$> insT h k v = ins h k v) ->
  forall h, fst <$> rehash_chain_traced insT l h = rehash_chain ins l h.
Proof.
  intros Hins. induction l as [|a l IH]; intros h; [reflexivity|].
  simpl. rewrite <- Hins. destruct (insT h (key a) (value a)) as [[h1 f1]|]; [|reflexivity].
  simpl. rewrite <- IH. destruct (rehash_chain_traced insT l h1) as [[h2 f2]|]; reflexivity.
Qed.

Lemma rehash_table_traced_fst insT ins (tbl : list chain) :
  (forall h k v, fst <$> insT h k v = ins h k v) ->
  forall h, fst <$> rehash_table_traced insT tbl h = rehash_table ins tbl h.
Proof.
  intros Hins. induction tbl as [|ch tbl IH]; intros h; [reflexivity|].
  simpl. rewrite <- (rehash_chain_traced_fst insT ins ch Hins).
  destruct (rehash_chain_traced insT ch h) as [[h1 f1]|]; [|reflexivity].
  simpl. rewrite <- IH. destruct (rehash_table_traced insT tbl h1) as [[h2 f2]|]; reflexivity.
Qed.

(** The table that the traced insertion leaves is the table that
    [hash_insert] leaves. *)
Lemma hash_insert_traced_fst depth : forall h k v,
  fst <$> hash_insert_traced depth h k v = hash_insert depth h k v.
Proof.
  induction depth as [|d IH]; intros h k v; simpl.
  - destruct (over_threshold h); [reflexivity|]. simpl.
    rewrite <- insert_in_bucket_traced_fst.
    destruct (insert_in_bucket_traced h k v) as [[h2 f2]|]; reflexivity.
  - destruct (over_threshold h).
    + unfold _hash_resize_traced, _hash_resize.
      destruct (Z.of_nat (length (table h)) <? capacity h); [reflexivity|].
      rewrite <- (rehash_table_traced_fst (hash_insert_traced d) (hash_insert d) _ IH).
      destruct (rehash_table_traced _ _ _) as [[h1 f1]|]; [|reflexivity]. simpl.
      rewrite <- insert_in_bucket_traced_fst.
      destruct (insert_in_bucket_traced h1 k v) as [[h2 f2]|]; reflexivity.
    + simpl. rewrite <- insert_in_bucket_traced_fst.
      destruct (insert_in_bucket_traced h k v) as [[h2 f2]|]; reflexivity.
Qed.

Lemma rehash_chain_traced_app insT (l1 l2 : chain) h :
  rehash_chain_traced insT (l1 ++ l2) h =
    r1 ← rehash_chain_traced insT l1 h;
    r2 ← rehash_chain_traced insT l2 r1.1;
    Some (r2.1, r1.2 ++ r2.2).
Proof.
  revert h. induction l1 as [|a l1 IH]; intros h; simpl.
  - destruct (rehash_chain_traced insT l2 h) as [[h2 f2]|]; reflexivity.
  - destruct (insT h (key a) (value a)) as [[h1 f1]|]; [|reflexivity]. simpl.
    rewrite IH. destruct (rehash_chain_traced insT l1 h1) as [[h2 f2]|]; [|reflexivity].
    simpl. destruct (rehash_chain_traced insT l2 h2) as [[h3 f3]|]; [|reflexivity].
    simpl. rewrite <- !app_assoc. reflexivity.
Qed.

Lemma rehash_table_traced_concat insT (tbl : list chain) h :
  rehash_table_traced insT tbl h = rehash_chain_traced insT (concat tbl) h.
Proof.
  revert h. induction tbl as [|ch tbl IH]; intros h; [reflexivity|].
  simpl. rewrite rehash_chain_traced_app.
  destruct (rehash_chain_traced insT ch h) as [[h1 f1]|]; [|reflexivity].
  simpl. rewrite IH. reflexivity.
Qed.

(** Re-insertion into a table that has room for all the nodes frees the
    old nodes, in order, and nothing else. *)
Lemma rehash_traced_no_resize (l : chain) : forall h h',
  inv h -> Z.of_nat (size (to_map h)) + Z.of_nat (length l) <= 5 * capacity h ->
  Forall (fun a => value a <> NULL) l ->
  (forall depth, rehash_chain (hash_insert depth) l h = Some h') ->
  forall depth, rehash_chain_traced (hash_insert_traced depth) l h = Some (h', FreeNode <$> l).
Proof.
  induction l as [|a l IH]; intros h h' Hinv Hle Hnn Hall depth.
  - specialize (Hall O). simpl in Hall. injection Hall as <-. reflexivity.
  - apply Forall_cons in Hnn as [Ha Hnn].
    assert (Hover : over_threshold h = false).
    { apply over_threshold_false; [assumption|].
      pose proof (num_elems_le_size _ Hinv). simpl in Hle. lia. }
    destruct (insert_in_bucket_spec h (key a) (value a) Hinv) as (h1 & E & Hinv1 & Hc1 & Hm1 & _).
    assert (Hall1 : forall depth, rehash_chain (hash_insert depth) l h1 = Some h').
    { intros d. specialize (Hall d). simpl in Hall.
      rewrite hash_insert_no_resize, E in Hall by assumption. exact Hall. }
    assert (Hstep : hash_insert_traced depth h (key a) (value a) = Some (h1, [])).
    { destruct depth; simpl; rewrite Hover; simpl;
        rewrite insert_in_bucket_traced_nonnull, E by assumption; reflexivity. }
    cbn [rehash_chain_traced]. rewrite Hstep. simpl.
    rewrite (IH h1 h' Hinv1); [reflexivity| |assumption|assumption].
    rewrite Hc1, Hm1. pose proof (map_upsert_size_le (key a) (value a) (to_map h)).
    simpl in Hle. lia.
Qed.

(** A resize that does not nest frees every old node, then the old bucket
    array. *)
Lemma _hash_resize_traced_total h h1 :
  inv h -> capacity h < 2 ^ 31 -> Z.of_nat (size (to_map h)) <= 10 * capacity h ->
  (forall depth, _hash_resize (hash_insert depth) h = Some h1) ->
  forall depth, _hash_resize_traced (hash_insert_traced depth) h = Some (h1, resize_frees h).
Proof.
  intros Hinv Hcap Hsize Hall depth.
  destruct (inv_pow2 _ Hinv) as (i & Hi & Ec).
  assert (Hi' : i < 31).
  { destruct (Z_lt_le_dec i 31); [assumption|].
    assert (2 ^ 31 <= 2 ^ i) by (apply Z.pow_le_mono_r; lia). lia. }
  assert (E2 : uint (capacity h * 2) = 2 ^ (i + 1)).
  { rewrite Ec, Z.pow_add_r by lia. apply uint_small.
    assert (0 < 2 ^ i) by (apply Z.pow_pos_nonneg; lia).
    change (2 ^ 1) with 2. change (2 ^ 31) with 2147483648 in *.
    change (2 ^ 32) with 4294967296. lia. }
  assert (Hall' : forall depth,
            rehash_chain (hash_insert depth) (concat (table h))
              (_hash_table_init h (2 ^ (i + 1))) = Some h1).
  { intros d. specialize (Hall d). unfold _hash_resize in Hall.
    rewrite inv_length_check, inv_take, rehash_table_concat, E2 in Hall by assumption.
    exact Hall. }
  unfold _hash_resize_traced, resize_frees.
  rewrite inv_length_check, inv_take, rehash_table_traced_concat, E2 by assumption.
  rewrite (rehash_traced_no_resize _ _ h1); [reflexivity| | |apply inv_old_nodes, Hinv|exact Hall'].
  - apply inv_init. lia.
  - rewrite to_map_init, map_size_empty, <- size_to_map by assumption.
    simpl capacity. rewrite Z.pow_add_r by lia. change (2 ^ 1) with 2. lia.
Qed.

(** The load-factor test of a call on a table that satisfies the
    invariants frees what a resize frees when it resizes, and nothing
    otherwise. *)
Lemma grow_traced h k v h1 h' :
  inv h -> inv_load h -> insert_result h k v h1 h' ->
  forall depth r2, insert_in_bucket_traced h1 k v = Some r2 ->
  hash_insert_traced (S depth) h k v
  = Some (r2.1, (if over_threshold h then resize_frees h else []) ++ r2.2).
Proof.
  intros Hinv Hload R depth r2 E2.
  pose proof (res_grow _ _ _ _ _ R) as Hgrow. unfold grow in Hgrow.
  cbn [hash_insert_traced].
  destruct (over_threshold h) eqn:Hover.
  - destruct (over_threshold_true_inv h Hinv Hload Hover) as [_ Hhi].
    change (2 ^ 29) with 536870912 in Hhi.
    rewrite (_hash_resize_traced_total h h1 Hinv); [| | |exact Hgrow].
    + simpl. rewrite E2. reflexivity.
    + change (2 ^ 31) with 2147483648. lia.
    + assert (capacity h < 2 ^ 30) as Hlt by (change (2 ^ 30) with 1073741824; lia).
      pose proof (load_size _ Hload Hlt). pose proof (inv_capacity_pos _ Hinv). lia.
  - specialize (Hgrow O). injection Hgrow as <-. simpl. rewrite E2. reflexivity.
Qed.

(** The removal of a key that a node carries frees that node. *)
Lemma insert_in_bucket_traced_remove h k v0 :
  inv h -> to_map h !! k = Some v0 ->
  exists h', insert_in_bucket_traced h k NULL = Some (h', [FreeNode {| key := k; value := v0 |}]).
Proof.
  intros Hinv Hk.
  pose proof (inv_capacity_pos _ Hinv) as Hc.
  pose proof (inv_bucket h k Hinv) as Hb.
  unfold insert_in_bucket_traced.
  destruct (Z.eqb_spec (capacity h) 0) as [|_]; [lia|].
  fold (home (capacity h) k). rewrite Hb. simpl.
  set (ch := table h !!! home (capacity h) k) in *.
  destruct (find_assoc k ch) as [before found] eqn:Hf.
  pose proof (find_assoc_found _ _ _ _ Hf) as Hfound.
  destruct (find_assoc_spec _ _ _ _ Hf) as (Ech & _ & Hcur).
  rewrite (to_map_lookup h k Hinv) in Hk. fold ch in Hk.
  destruct found as [|cur next].
  { rewrite (proj1 Hfound eq_refl) in Hk. discriminate. }
  eexists. do 3 f_equal.
  assert (Hin : cur ∈ concat (table h)).
  { apply list_elem_of_In, in_concat. exists ch. split.
    - apply list_elem_of_In, list_elem_of_lookup. eexists. exact Hb.
    - apply list_elem_of_In. rewrite Ech, elem_of_app, elem_of_cons. auto. }
  apply (elem_of_nodes h cur Hinv) in Hin.
  rewrite Hcur, (to_map_lookup h k Hinv) in Hin. fold ch in Hin.
  destruct cur as [kc vc]. simpl in *. congruence.
Qed.

End Traces.

(** * Tables grown by insertions *)

Section Growth.

Lemma unary_key_length i : String.length (unary_key i) = i.
Proof.
  induction i as [|i IH]; [reflexivity|].
  unfold unary_key in *. rewrite Nat.iter_succ. simpl. rewrite IH. reflexivity.
Qed.

Lemma unary_key_inj i j : unary_key i = unary_key j -> i = j.
Proof.
  intros E. rewrite <- (unary_key_length i), <- (unary_key_length j), E. reflexivity.
Qed.

Lemma unary_pairs_NoDup n : NoDup (unary_pairs n).*1.
Proof.
  unfold unary_pairs. rewrite <- list_fmap_compose.
  apply NoDup_fmap_2; [|apply NoDup_seq].
  intros i j E. apply unary_key_inj, E.
Qed.

Lemma unary_pairs_nonnull n : Forall (fun kv => kv.2 <> NULL) (unary_pairs n).
Proof.
  unfold unary_pairs. apply Forall_fmap, Forall_forall. intros i _. discriminate.
Qed.

Lemma unary_pairs_length n : length (unary_pairs n) = n.
Proof. unfold unary_pairs. rewrite length_fmap. apply length_seq. Qed.

Lemma unary_pairs_elem i n : (i < n)%nat -> (unary_key i, 1) ∈ unary_pairs n.
Proof.
  intros Hi. unfold unary_pairs. apply list_elem_of_fmap. exists i.
  split; [reflexivity|]. apply elem_of_seq. lia.
Qed.

Lemma two32_spec : Z.of_nat two32 = 2 ^ 32.
Proof. unfold two32. apply Z2Nat.id. apply Z.pow_nonneg. lia. Qed.

Lemma two32_pos : (0 < two32)%nat.
Proof.
  apply Nat2Z.inj_lt. rewrite two32_spec. apply Z.pow_pos_nonneg; lia.
Qed.

(** An insertion of a value other than [NULL] never takes a key away. *)
Lemma map_upsert_size_ge k v (m : gmap string ptr) :
  v <> NULL -> (size m <= size (map_upsert k v m))%nat.
Proof.
  intros Hv. rewrite map_upsert_nonnull by assumption.
  destruct (m !! k) as [w|] eqn:E.
  - rewrite map_size_insert_Some by (rewrite E; eauto). lia.
  - rewrite map_size_insert_None by assumption. lia.
Qed.

(** An insertion of a value other than [NULL] keeps a grown table grown. *)
Lemma insert_result_grown h k v h1 h' :
  inv h -> inv_load h -> v <> NULL -> insert_result h k v h1 h' -> grown h -> grown h'.
Proof.
  intros Hinv Hload Hv R Hg. unfold grown in *.
  pose proof (map_upsert_size_ge k v (to_map h) Hv) as Hsz.
  rewrite <- (res_map _ _ _ _ _ R) in Hsz.
  rewrite (res_cap _ _ _ _ _ R), (res_cap1 _ _ _ _ _ R).
  destruct (over_threshold h) eqn:Hover.
  - right. destruct (over_threshold_true_inv h Hinv Hload Hover) as [Hlo _].
    pose proof (num_elems_le_size h Hinv). lia.
  - destruct Hg as [Hg|Hg]; [left; exact Hg|right; lia].
Qed.

(** Insertion of pairs of distinct keys and values other than [NULL]
    returns, whatever resizes it takes, and keeps the invariants. *)
Lemma insert_all_grows kvs h :
  inv h -> inv_load h -> inv_tight h -> grown h ->
  NoDup kvs.*1 -> Forall (fun kv => kv.2 <> NULL) kvs ->
  exists h', (forall depth, insert_all (S depth) h kvs = Some h')
    /\ inv h' /\ inv_load h' /\ inv_tight h' /\ grown h'
    /\ to_map h' = list_to_map kvs ∪ to_map h.
Proof.
  revert h. induction kvs as [|[k v] kvs IH]; intros h Hinv Hload Htight Hg Hnd Hnn.
  - exists h. split; [reflexivity|]. do 4 (split; [assumption|]).
    simpl. rewrite (left_id_L ∅ (∪)). reflexivity.
  - rewrite fmap_cons in Hnd. apply NoDup_cons in Hnd as [Hk Hnd].
    apply Forall_cons in Hnn as [Hv Hnn]. simpl in Hk, Hv.
    destruct (hash_insert_total h k v Hinv Hload Htight) as (h1 & h2 & R).
    pose proof (insert_result_grown _ _ _ _ _ Hinv Hload Hv R Hg) as Hg2.
    destruct (IH h2 (res_inv _ _ _ _ _ R) (res_load _ _ _ _ _ R) (res_tight _ _ _ _ _ R)
                Hg2 Hnd Hnn)
      as (h' & Hall & Hinv' & Hload' & Htight' & Hg' & Hm').
    exists h'. split; [|do 4 (split; [assumption|])].
    + intros depth. cbn [insert_all]. rewrite (insert_result_returns _ _ _ _ _ R).
      simpl. apply Hall.
    + rewrite Hm', (res_map _ _ _ _ _ R), map_upsert_nonnull by assumption.
      simpl. rewrite <- insert_union_l. symmetry. apply insert_union_r.
      apply not_elem_of_list_to_map, Hk.
Qed.

(** The same from a new table: the table built holds the pairs, and no
    other key. *)
Lemma insert_all_create kvs :
  NoDup kvs.*1 -> Forall (fun kv => kv.2 <> NULL) kvs ->
  exists t, (forall depth, insert_all (S depth) hash_create kvs = Some t)
    /\ reachable t /\ inv_load t /\ inv_tight t /\ grown t
    /\ to_map t = list_to_map kvs
    /\ size (to_map t) = length kvs
    /\ (forall k v, (k, v) ∈ kvs -> hash_get t k = Some v).
Proof.
  intros Hnd Hnn. destruct inv_create as (Hinv & Hload & Htight).
  destruct (insert_all_grows kvs hash_create Hinv Hload Htight) as
    (t & Hall & Hinvt & Hloadt & Htightt & Hgt & Hm); [left; reflexivity|assumption..|].
  unfold hash_create in Hm. rewrite to_map_init, (right_id_L ∅ (∪)) in Hm.
  exists t. split; [exact Hall|].
  split; [exact (reachable_insert_all _ _ _ _ reachable_create (Hall O))|].
  do 3 (split; [assumption|]). split; [exact Hm|]. split.
  - rewrite Hm. apply map_size_list_to_map, Hnd.
  - intros k v Hkv. rewrite hash_get_spec, Hm by assumption.
    rewrite (elem_of_list_to_map_1 _ _ _ Hnd Hkv). reflexivity.
Qed.

(** The keys of the table are the keys of the map, in some order. *)
Lemma all_keys_Permutation h (l : list string) :
  inv h -> NoDup l -> (forall k, k ∈ l <-> is_Some (to_map h !! k)) -> all_keys h ≡ₚ l.
Proof.
  intros Hinv Hnd Hl. apply NoDup_Permutation; [apply all_keys_NoDup, Hinv|exact Hnd|].
  intros k. rewrite all_keys_to_map, Hl. reflexivity.
Qed.

(** ** A table of [2^32] keys *)

(** [2^32] insertions of distinct keys into a new table return: the table
    they build has [2^30] buckets, and its counter is back at zero. *)
Lemma full_table :
  exists t, (forall depth, insert_all (S depth) hash_create (unary_pairs two32) = Some t)
    /\ reachable t
    /\ capacity t = 2 ^ 30
    /\ num_elems t = 0
    /\ unary_key 0 ∈ all_keys t
    /\ (forall k v, (k, v) ∈ unary_pairs two32 -> hash_get t k = Some v).
Proof.
  destruct (insert_all_create (unary_pairs two32) (unary_pairs_NoDup _) (unary_pairs_nonnull _))
    as (t & Hall & Hr & Hload & _ & _ & Hm & Hsz & Hget).
  destruct (reachable_inv t Hr) as (Hinv & _ & _).
  rewrite unary_pairs_length in Hsz.
  assert (HszZ : Z.of_nat (size (to_map t)) = 2 ^ 32) by (rewrite Hsz; apply two32_spec).
  exists t. split; [exact Hall|]. split; [exact Hr|]. split; [|split; [|split; [|exact Hget]]].
  - destruct (inv_pow2 _ Hinv) as (i & Hi & Ec).
    pose proof (load_cap _ Hload) as Hcap. pose proof (load_size _ Hload) as Hls.
    rewrite HszZ in Hls.
    destruct (Z_lt_le_dec i 30) as [Hlt|Hge].
    + exfalso. assert (2 ^ i <= 2 ^ 29) as Hle by (apply Z.pow_le_mono_r; lia).
      rewrite Ec in Hls. change (2 ^ 29) with 536870912 in Hle.
      change (2 ^ 30) with 1073741824 in Hls. change (2 ^ 32) with 4294967296 in Hls. lia.
    + assert (2 ^ 30 <= 2 ^ i) as Hle by (apply Z.pow_le_mono_r; lia). lia.
  - rewrite (inv_count _ Hinv), HszZ. reflexivity.
  - rewrite all_keys_to_map, Hm.
    exists 1. apply elem_of_list_to_map_1; [apply unary_pairs_NoDup|].
    apply (unary_pairs_elem 0), two32_pos.
Qed.

(** ** Removal of a present key *)

Lemma nodes_NoDup h : inv h -> NoDup (concat (table h)).
Proof. intros Hinv. apply (NoDup_fmap_1 key), all_keys_NoDup, Hinv. Qed.

(** What a removal of a key that a node carries does to the map and to the
    counter. *)
Lemma remove_result t k :
  reachable t -> k ∈ all_keys t ->
  exists t1 t' v, insert_result t k NULL t1 t'
    /\ to_map t !! k = Some v /\ v <> NULL
    /\ to_map t' = delete k (to_map t)
    /\ S (size (to_map t')) = size (to_map t)
    /\ num_elems t' = uint (num_elems t - 1).
Proof.
  intros Hr Hk. destruct (reachable_inv t Hr) as (Hinv & _ & _).
  destruct (reachable_insert_result t k NULL Hr) as (t1 & t' & R).
  pose proof (res_inv _ _ _ _ _ R) as Hinv'.
  assert (Hm : to_map t' = delete k (to_map t)) by apply (res_map _ _ _ _ _ R).
  pose proof Hk as Hsome. rewrite all_keys_to_map in Hsome.
  destruct Hsome as [v Hv].
  assert (Hsz : size (to_map t) <> O).
  { intros Hz. apply map_size_empty_inv in Hz. rewrite Hz, lookup_empty in Hv. discriminate. }
  assert (Hsz' : size (to_map t') = Nat.pred (size (to_map t))).
  { rewrite Hm. apply map_size_delete_Some. rewrite Hv. eauto. }
  exists t1, t', v. split; [exact R|]. split; [exact Hv|]. split; [|split; [exact Hm|split]].
  - pose proof (inv_old_nodes t Hinv) as Hnn. rewrite Forall_forall in Hnn.
    apply (Hnn {| key := k; value := v |}), elem_of_nodes; assumption.
  - lia.
  - rewrite (inv_count _ Hinv), (inv_count _ Hinv'), uint_pred. f_equal. lia.
Qed.

(** The nodes before a removal are the node removed and the nodes after. *)
Lemma remove_nodes t t' k v :
  inv t -> inv t' -> to_map t !! k = Some v -> to_map t' = delete k (to_map t) ->
  concat (table t) ≡ₚ {| key := k; value := v |} :: concat (table t').
Proof.
  intros Hinv Hinv' Hv Hm.
  apply NoDup_Permutation; [apply nodes_NoDup, Hinv| |].
  - apply NoDup_cons. split; [|apply nodes_NoDup, Hinv'].
    rewrite elem_of_nodes, Hm by assumption. simpl. rewrite lookup_delete_eq. discriminate.
  - intros a. rewrite elem_of_cons, !elem_of_nodes, Hm by assumption.
    destruct a as [ka va]. simpl. destruct (decide (k = ka)) as [<-|Hne].
    + rewrite lookup_delete_eq, Hv. split.
      * intros [= <-]. left. reflexivity.
      * intros [[= <-]|[=]]. reflexivity.
    + rewrite lookup_delete_ne by assumption. split; [auto|].
      intros [[= ? ?]|?]; [congruence|assumption].
Qed.

End Growth.

(** * The properties of the specification *)

Section Properties.

(** A sample table is reachable: its insertions are run. *)
Ltac sample_reachable := apply reachable_sample; vm_compute; eexists; reflexivity.

(** A decidable closed proposition is decided by evaluation. *)
Ltac by_evaluation := apply (bool_decide_unpack _); vm_compute; exact I.

(** The scenario of the specification: ("a",1), ("b",2), ("a",3). *)
Example scenario_abc :
  (fun t => (hash_get t "a", hash_get t "b", hash_get t "c", num_elems t)) <$>
    insert_all 0 hash_create [("a", 1); ("b", 2); ("a", 3)]
  = Some (Some 3, Some 2, Some NULL, 2).
Proof. vm_compute. reflexivity. Qed.

(** C9. Key uniqueness: in every table reachable from [hash_create] by calls
    of [hash_insert] and [hash_get], no two nodes of the bucket chains carry
    the same key; nor do they in the table that a resize of such a table
    builds. *)
Theorem key_uniqueness t :
  reachable t ->
  NoDup (all_keys t) /\
  (forall depth t1, _hash_resize (hash_insert depth) t = Some t1 -> NoDup (all_keys t1)).
Proof.
  intros Hr. destruct (reachable_inv t Hr) as (Hinv & Hload & _).
  split; [apply all_keys_NoDup, Hinv|].
  intros depth t1 E.
  destruct (_hash_resize_spec _ _ _ (hash_insert_ok depth) Hinv E) as [[Ec _]|(Hinv1 & _)].
  - pose proof (load_cap _ Hload) as Hc. rewrite Ec in Hc.
    change (2 ^ 31) with 2147483648 in Hc. change (2 ^ 30) with 1073741824 in Hc. lia.
  - apply all_keys_NoDup, Hinv1.
Qed.

Lemma key_uniqueness_witness :
  NoDup (all_keys (sample_table 100)) /\
  (forall depth t1,
     _hash_resize (hash_insert depth) (sample_table 100) = Some t1 -> NoDup (all_keys t1)).
Proof.
  apply key_uniqueness. sample_reachable.
Defined.

(** C8. A lookup of a key that no node carries is not an error: it returns
    [NULL]; and a lookup, of whatever key, returns and leaves the table as it
    was. *)
Theorem lookup_absent_key t k :
  reachable t -> k ∉ all_keys t ->
  (forall depth, step depth t (Get k) = Some (t, NULL)) /\
  (forall k' depth, exists r, step depth t (Get k') = Some (t, r)).
Proof.
  intros Hr Hk. destruct (reachable_inv t Hr) as (Hinv & _ & _). split.
  - intros depth. simpl. rewrite hash_get_absent by assumption. reflexivity.
  - intros k' depth. simpl. rewrite hash_get_spec by assumption. eexists. reflexivity.
Qed.

Lemma lookup_absent_key_witness :
  (forall depth, step depth (sample_table 100) (Get "absent") = Some (sample_table 100, NULL)) /\
  (forall k' depth, exists r, step depth (sample_table 100) (Get k') = Some (sample_table 100, r)).
Proof.
  apply lookup_absent_key.
  - sample_reachable.
  - by_evaluation.
Defined.

(** C4. Round trip: on every reachable table, [hash_insert] of a key with a
    value other than [NULL] returns, with one level of resize at most and
    the same table at whatever depth, and [hash_get] of the key then returns
    that value. *)
Theorem upsert_then_lookup t k v :
  reachable t -> v <> NULL ->
  exists t', (forall depth, hash_insert (S depth) t k v = Some t')
    /\ (forall depth t'', hash_insert depth t k v = Some t'' -> t'' = t')
    /\ hash_get t' k = Some v.
Proof.
  intros Hr Hv. destruct (reachable_insert_result t k v Hr) as (t1 & t' & R).
  exists t'. split; [apply (insert_result_returns _ _ _ _ _ R)|].
  split; [intros depth t''; apply (insert_result_unique _ _ _ _ _ _ _ R)|].
  rewrite hash_get_spec by apply (res_inv _ _ _ _ _ R).
  rewrite (res_map _ _ _ _ _ R), map_upsert_nonnull, lookup_insert_eq by assumption.
  reflexivity.
Qed.

Lemma upsert_then_lookup_witness :
  exists t', (forall depth, hash_insert (S depth) (sample_table 81) "k" 7 = Some t')
    /\ (forall depth t'', hash_insert depth (sample_table 81) "k" 7 = Some t'' -> t'' = t')
    /\ hash_get t' "k" = Some 7.
Proof.
  apply upsert_then_lookup.
  - sample_reachable.
  - discriminate.
Defined.

(** C7. Removal of a key that no node carries is a no-op for the contents:
    the call returns, [num_elems] is unchanged and every key is looked up
    to the value it had. *)
Theorem delete_absent_key_noop t k :
  reachable t -> k ∉ all_keys t ->
  exists t', (forall depth, hash_insert (S depth) t k NULL = Some t')
    /\ (forall depth t'', hash_insert depth t k NULL = Some t'' -> t'' = t')
    /\ num_elems t' = num_elems t
    /\ (forall k', hash_get t' k' = hash_get t k').
Proof.
  intros Hr Hk. destruct (reachable_inv t Hr) as (Hinv & _ & _).
  destruct (reachable_insert_result t k NULL Hr) as (t1 & t' & R).
  assert (Hm : to_map t' = to_map t).
  { rewrite (res_map _ _ _ _ _ R). unfold map_upsert. simpl. apply delete_id.
    rewrite all_keys_to_map, <- eq_None_not_Some in Hk. exact Hk. }
  exists t'. split; [apply (insert_result_returns _ _ _ _ _ R)|].
  split; [intros depth t''; apply (insert_result_unique _ _ _ _ _ _ _ R)|].
  split.
  - apply num_elems_eq; [assumption | apply (res_inv _ _ _ _ _ R) | assumption].
  - intros k'. apply hash_get_eq; [assumption | apply (res_inv _ _ _ _ _ R) | assumption].
Qed.

Lemma delete_absent_key_noop_witness :
  exists t', (forall depth, hash_insert (S depth) (sample_table 81) "absent" NULL = Some t')
    /\ (forall depth t'', hash_insert depth (sample_table 81) "absent" NULL = Some t'' -> t'' = t')
    /\ num_elems t' = num_elems (sample_table 81)
    /\ (forall k', hash_get t' k' = hash_get (sample_table 81) k').
Proof.
  apply delete_absent_key_noop.
  - sample_reachable.
  - by_evaluation.
Defined.

(** C6, as stated, fails on a table of [2^32] keys.  [2^32] insertions of
    distinct keys into a new table return a reachable table whose counter,
    an [unsigned int], is back at [0]; the removal of one of its keys
    returns, and the [num_elems--] of the removal leaves [2^32 - 1], which
    is not one less than [0]. *)
Lemma removal_count_wraps :
  exists t t',
    (forall depth, insert_all (S depth) hash_create (unary_pairs two32) = Some t)
    /\ reachable t
    /\ unary_key 0 ∈ all_keys t
    /\ (forall depth, hash_insert (S depth) t (unary_key 0) NULL = Some t')
    /\ num_elems t = 0
    /\ num_elems t' = 2 ^ 32 - 1
    /\ num_elems t' <> num_elems t - 1.
Proof.
  destruct full_table as (t & Hall & Hr & _ & Hn & Hk & _).
  destruct (remove_result t (unary_key 0) Hr Hk) as (t1 & t' & v & R & _ & _ & _ & _ & Hn').
  rewrite Hn in Hn'. change (uint (0 - 1)) with (2 ^ 32 - 1) in Hn'.
  exists t, t'. do 3 (split; [assumption|]).
  split; [apply (insert_result_returns _ _ _ _ _ R)|].
  split; [exact Hn|]. split; [exact Hn'|].
  rewrite Hn, Hn'. discriminate.
Qed.

(** C6. Removal of a key that a node carries, in every reachable table:
    the key has a value [v] other than [NULL] and the call returns.  The
    node of the key is unlinked: the nodes before the call are that node and
    the nodes after it, and the key is in no chain any more.  The node is
    destroyed: the call passes it to [free], after the nodes and the bucket
    array that a resize of the call, if its load-factor test asks for one,
    has copied and freed.  [num_elems] is decremented as an [unsigned int]:
    it is one less unless it was [0], which it is in a table of [2^32]
    nodes.  And [hash_get] of the key returns [NULL]. *)
Theorem delete_present_key t k :
  reachable t -> k ∈ all_keys t ->
  exists t' v,
    hash_get t k = Some v /\ v <> NULL
    /\ (forall depth, hash_insert (S depth) t k NULL = Some t')
    /\ (forall depth t'', hash_insert depth t k NULL = Some t'' -> t'' = t')
    /\ (forall depth, hash_insert_traced (S depth) t k NULL =
          Some (t', (if over_threshold t then resize_frees t else [])
                    ++ [FreeNode {| key := k; value := v |}]))
    /\ concat (table t) ≡ₚ {| key := k; value := v |} :: concat (table t')
    /\ (k ∉ all_keys t')
    /\ (length (all_keys t') + 1 = length (all_keys t))%nat
    /\ num_elems t' = uint (num_elems t - 1)
    /\ (num_elems t <> 0 -> num_elems t' = num_elems t - 1)
    /\ hash_get t' k = Some NULL.
Proof.
  intros Hr Hk. destruct (reachable_inv t Hr) as (Hinv & Hload & _).
  destruct (remove_result t k Hr Hk) as (t1 & t' & v & R & Hv & Hnn & Hm & Hsz & Hn).
  pose proof (res_inv _ _ _ _ _ R) as Hinv'.
  exists t', v.
  split; [rewrite hash_get_spec, Hv by assumption; reflexivity|].
  split; [exact Hnn|].
  split; [apply (insert_result_returns _ _ _ _ _ R)|].
  split; [intros depth t''; apply (insert_result_unique _ _ _ _ _ _ _ R)|].
  split; [|split; [|split; [|split; [|split; [|split]]]]].
  - intros depth.
    destruct (insert_in_bucket_traced_remove t1 k v (res_inv1 _ _ _ _ _ R)) as (t'' & E).
    { rewrite (res_map1 _ _ _ _ _ R). exact Hv. }
    pose proof (insert_in_bucket_traced_fst t1 k NULL) as Hfst.
    rewrite E, (res_bucket _ _ _ _ _ R) in Hfst. injection Hfst as ->.
    apply (grow_traced t k NULL t1 t' Hinv Hload R depth _ E).
  - apply remove_nodes; assumption.
  - rewrite all_keys_to_map, Hm, lookup_delete_eq. intros [? [=]].
  - rewrite !all_keys_length by assumption. lia.
  - exact Hn.
  - intros Hne. rewrite Hn. apply uint_small.
    pose proof (num_elems_range t Hinv). lia.
  - rewrite hash_get_spec, Hm, lookup_delete_eq by assumption. reflexivity.
Qed.

Lemma delete_present_key_witness :
  exists t' v,
    hash_get (sample_table 81) (sample_key 3) = Some v /\ v <> NULL
    /\ (forall depth, hash_insert (S depth) (sample_table 81) (sample_key 3) NULL = Some t')
    /\ (forall depth t'',
          hash_insert depth (sample_table 81) (sample_key 3) NULL = Some t'' -> t'' = t')
    /\ (forall depth, hash_insert_traced (S depth) (sample_table 81) (sample_key 3) NULL =
          Some (t', (if over_threshold (sample_table 81)
                     then resize_frees (sample_table 81) else [])
                    ++ [FreeNode {| key := sample_key 3; value := v |}]))
    /\ concat (table (sample_table 81))
         ≡ₚ {| key := sample_key 3; value := v |} :: concat (table t')
    /\ (sample_key 3 ∉ all_keys t')
    /\ (length (all_keys t') + 1 = length (all_keys (sample_table 81)))%nat
    /\ num_elems t' = uint (num_elems (sample_table 81) - 1)
    /\ (num_elems (sample_table 81) <> 0 -> num_elems t' = num_elems (sample_table 81) - 1)
    /\ hash_get t' (sample_key 3) = Some NULL.
Proof.
  apply delete_present_key.
  - sample_reachable.
  - by_evaluation.
Defined.

(** C10. The mutual recursion of [hash_insert] and [_hash_resize] does not
    nest: a resize of a reachable table whose load factor is over the
    threshold returns when the insertion it calls back is given depth [0],
    that is, may not resize in turn; every depth yields the same table, and
    the capacity is exactly doubled. *)
Theorem resize_does_not_nest t :
  reachable t -> over_threshold t = true ->
  exists t1, _hash_resize (hash_insert 0) t = Some t1
    /\ (forall depth, _hash_resize (hash_insert depth) t = Some t1)
    /\ capacity t1 = 2 * capacity t.
Proof.
  intros Hr Hover. destruct (reachable_inv t Hr) as (Hinv & Hload & _).
  destruct (over_threshold_true_inv t Hinv Hload Hover) as [_ Hhi].
  change (2 ^ 29) with 536870912 in Hhi.
  destruct (_hash_resize_total t Hinv) as (t1 & Hall & _ & Hc1 & _).
  { change (2 ^ 31) with 2147483648. lia. }
  { assert (capacity t < 2 ^ 30) as Hlt by (change (2 ^ 30) with 1073741824; lia).
    pose proof (load_size _ Hload Hlt). pose proof (inv_capacity_pos _ Hinv). lia. }
  exists t1. auto.
Qed.

Lemma resize_does_not_nest_witness :
  exists t1, _hash_resize (hash_insert 0) (sample_table 81) = Some t1
    /\ (forall depth, _hash_resize (hash_insert depth) (sample_table 81) = Some t1)
    /\ capacity t1 = 2 * capacity (sample_table 81).
Proof.
  apply resize_does_not_nest.
  - sample_reachable.
  - vm_compute. reflexivity.
Defined.

(** C5. Overwrite: on every reachable table, after [hash_insert] of a key
    with a value [v1], [hash_insert] of the same key with a value [v2] (both
    other than [NULL]) returns, [hash_get] of the key returns [v2], and
    [num_elems] is unchanged.  The value is overwritten in place: in the
    table [t1'] that the scan runs on, which is the table after the
    load-factor test of the call (the table before the call unless that test
    resized it), every chain keeps its nodes where they are, and the node of
    the key alone takes the new value. *)
Theorem overwrite_in_place t k v1 v2 :
  reachable t -> v1 <> NULL -> v2 <> NULL ->
  exists t1 t1' t2,
    (forall depth, hash_insert (S depth) t k v1 = Some t1)
    /\ (forall depth, hash_insert (S depth) t1 k v2 = Some t2)
    /\ (forall depth t'', hash_insert depth t1 k v2 = Some t'' -> t'' = t2)
    /\ hash_get t2 k = Some v2
    /\ num_elems t2 = num_elems t1
    /\ (forall depth, grow (S depth) t1 = Some t1')
    /\ (over_threshold t1 = false -> t1' = t1)
    /\ capacity t2 = capacity t1'
    /\ table t2 = overwritten k v2 (table t1').
Proof.
  intros Hr Hv1 Hv2.
  destruct (reachable_insert_result t k v1 Hr) as (t0 & t1 & R1).
  pose proof (res_inv _ _ _ _ _ R1) as Hinv1.
  destruct (hash_insert_total t1 k v2 Hinv1 (res_load _ _ _ _ _ R1) (res_tight _ _ _ _ _ R1))
    as (t1' & t2 & R2).
  pose proof (res_inv _ _ _ _ _ R2) as Hinv2.
  pose proof (res_inv1 _ _ _ _ _ R2) as Hinv1'.
  assert (Hk1 : to_map t1 !! k = Some v1).
  { rewrite (res_map _ _ _ _ _ R1), map_upsert_nonnull by assumption. apply lookup_insert_eq. }
  assert (Hm2 : to_map t2 = <[k := v2]> (to_map t1)).
  { rewrite (res_map _ _ _ _ _ R2). apply map_upsert_nonnull, Hv2. }
  exists t1, t1', t2.
  split; [apply (insert_result_returns _ _ _ _ _ R1)|].
  split; [apply (insert_result_returns _ _ _ _ _ R2)|].
  split; [intros depth t''; apply (insert_result_unique _ _ _ _ _ _ _ R2)|].
  split; [rewrite hash_get_spec, Hm2, lookup_insert_eq by assumption; reflexivity|].
  split.
  { rewrite (inv_count _ Hinv1), (inv_count _ Hinv2), Hm2, map_size_insert_Some by eauto.
    reflexivity. }
  split; [apply (res_grow _ _ _ _ _ R2)|].
  split; [apply (res_same _ _ _ _ _ R2)|].
  split; [apply (res_cap _ _ _ _ _ R2)|].
  rewrite (res_table _ _ _ _ _ R2).
  set (i := home (capacity t1') k). set (b := table t1' !!! i).
  pose proof (inv_bucket t1' k Hinv1') as Hb. fold i in Hb. fold b in Hb.
  assert (Hin : k ∈ key <$> b).
  { destruct (decide (k ∈ key <$> b)) as [|Hn]; [assumption|].
    apply chain_map_None in Hn. unfold b, i in Hn.
    rewrite <- to_map_lookup, (res_map1 _ _ _ _ _ R2), Hk1 in Hn by assumption.
    discriminate. }
  rewrite upsert_chain_in_place; [|apply (inv_nodup _ Hinv1' _ _ Hb)|assumption|assumption].
  apply list_eq. intros j. unfold overwritten. rewrite list_lookup_fmap.
  destruct (decide (j = i)) as [->|Hne].
  - rewrite list_lookup_insert_eq by (eapply lookup_lt_Some, Hb). rewrite Hb. reflexivity.
  - rewrite list_lookup_insert_ne by congruence.
    destruct (table t1' !! j) as [ch|] eqn:Ej; [|reflexivity]. simpl. f_equal.
    symmetry. apply set_value_absent. intros Hkin.
    apply list_elem_of_fmap in Hkin as (a & Ea & Ha).
    pose proof (inv_home _ Hinv1' _ _ _ Ej Ha) as Hh. rewrite <- Ea in Hh.
    apply Hne. symmetry. exact Hh.
Qed.

Lemma overwrite_in_place_witness :
  exists t1 t1' t2,
    (forall depth, hash_insert (S depth) (sample_table 80) "k" 1 = Some t1)
    /\ (forall depth, hash_insert (S depth) t1 "k" 2 = Some t2)
    /\ (forall depth t'', hash_insert depth t1 "k" 2 = Some t'' -> t'' = t2)
    /\ hash_get t2 "k" = Some 2
    /\ num_elems t2 = num_elems t1
    /\ (forall depth, grow (S depth) t1 = Some t1')
    /\ (over_threshold t1 = false -> t1' = t1)
    /\ capacity t2 = capacity t1'
    /\ table t2 = overwritten "k" 2 (table t1').
Proof.
  apply overwrite_in_place.
  - sample_reachable.
  - discriminate.
  - discriminate.
Defined.

(** C3, as stated, fails at [2^32] keys: the insertions return a table of
    [2^30] buckets that holds every key, and [num_elems], an [unsigned int],
    is back at [0], not at the number of keys. *)
Lemma growth_count_wraps :
  NoDup (unary_pairs two32).*1
  /\ Forall (fun kv => kv.2 <> NULL) (unary_pairs two32)
  /\ Z.of_nat (length (unary_pairs two32)) = 2 ^ 32
  /\ exists t, (forall depth, insert_all (S depth) hash_create (unary_pairs two32) = Some t)
       /\ capacity t = 2 ^ 30
       /\ (forall k v, (k, v) ∈ unary_pairs two32 -> hash_get t k = Some v)
       /\ num_elems t = 0
       /\ num_elems t <> Z.of_nat (length (unary_pairs two32)).
Proof.
  split; [apply unary_pairs_NoDup|]. split; [apply unary_pairs_nonnull|].
  assert (Hlen : Z.of_nat (length (unary_pairs two32)) = 2 ^ 32).
  { rewrite unary_pairs_length. apply two32_spec. }
  split; [exact Hlen|].
  destruct full_table as (t & Hall & _ & Hcap & Hn & _ & Hget).
  exists t. do 4 (split; [assumption|]).
  rewrite Hn, Hlen. discriminate.
Qed.

(** C3. Growth preserves data: inserting [N] pairs of distinct keys and
    values other than [NULL] into a new table returns, whatever resizes it
    takes.  Every key is then looked up to its value, the table holds these
    keys and no other, and [num_elems] is [N] modulo [2^32], so [N] when
    [N < 2^32].  The table has grown as [N] asks: its capacity is a power of
    two that [N] exceeds five times over by one at most (up to [2^21]
    buckets, six times over up to [2^30]), and it is the initial capacity
    or less than twice what five times over asks for.  And the rehash of a
    reachable table whose load factor is over the threshold re-homes every
    node: the new array has twice the buckets, its chains hold the nodes of
    the old ones, each in the bucket of its hash value modulo the new
    capacity, every key is looked up to the value it had, and the count,
    recomputed over the old nodes, ends at the total it had. *)
Theorem growth_preserves_data kvs :
  NoDup kvs.*1 -> Forall (fun kv => kv.2 <> NULL) kvs ->
  (exists t, (forall depth, insert_all (S depth) hash_create kvs = Some t)
     /\ (forall k v, (k, v) ∈ kvs -> hash_get t k = Some v)
     /\ all_keys t ≡ₚ kvs.*1
     /\ num_elems t = uint (Z.of_nat (length kvs))
     /\ (Z.of_nat (length kvs) < 2 ^ 32 -> num_elems t = Z.of_nat (length kvs))
     /\ (exists i, 4 <= i <= 30 /\ capacity t = 2 ^ i)
     /\ (capacity t <= 2 ^ 21 -> Z.of_nat (length kvs) <= 5 * capacity t + 1)
     /\ (capacity t < 2 ^ 30 -> Z.of_nat (length kvs) <= 6 * capacity t)
     /\ (capacity t = 16 \/ 5 * capacity t < 2 * Z.of_nat (length kvs)))
  /\ (forall t, reachable t -> over_threshold t = true ->
        exists t1, (forall depth, _hash_resize (hash_insert depth) t = Some t1)
          /\ capacity t1 = 2 * capacity t
          /\ length (table t1) = Z.to_nat (2 * capacity t)
          /\ concat (table t1) ≡ₚ concat (table t)
          /\ (forall i ch a, table t1 !! i = Some ch -> a ∈ ch ->
                Z.of_nat i = _djb_hash (key a) mod (2 * capacity t))
          /\ (forall k, hash_get t1 k = hash_get t k)
          /\ num_elems t1 = uint (Z.of_nat (length (concat (table t))))
          /\ num_elems t1 = num_elems t).
Proof.
  intros Hnd Hnn. split.
  - destruct (insert_all_create kvs Hnd Hnn)
      as (t & Hall & Hr & Hload & Htight & Hg & Hm & Hsz & Hget).
    destruct (reachable_inv t Hr) as (Hinv & _ & _).
    unfold inv_tight in Htight. unfold grown in Hg. pose proof (load_size _ Hload) as Hls.
    rewrite Hsz in Htight, Hg, Hls.
    exists t. split; [exact Hall|].
    split; [|split; [|split; [|split; [|split; [|split; [|split]]]]]]; try assumption.
    + apply all_keys_Permutation; [assumption..|].
      intros k. rewrite Hm, <- not_eq_None_Some, <- not_elem_of_list_to_map.
      split; [auto|]. intros Hk. destruct (decide (k ∈ kvs.*1)); [assumption|contradiction].
    + rewrite (inv_count _ Hinv), Hsz. reflexivity.
    + intros Hlen. rewrite (inv_count _ Hinv), Hsz. apply uint_small. lia.
    + destruct (inv_pow2 _ Hinv) as (i & Hi & Ec). exists i. split; [|exact Ec].
      split; [lia|]. pose proof (load_cap _ Hload) as Hcap.
      destruct (Z_lt_le_dec 30 i) as [Hgt|]; [|assumption]. exfalso.
      assert (2 ^ 31 <= 2 ^ i) as Hle by (apply Z.pow_le_mono_r; lia).
      change (2 ^ 31) with 2147483648 in Hle. change (2 ^ 30) with 1073741824 in Hcap. lia.
  - intros t Hr Hover. destruct (reachable_inv t Hr) as (Hinv & Hload & _).
    destruct (over_threshold_true_inv t Hinv Hload Hover) as [_ Hhi].
    change (2 ^ 29) with 536870912 in Hhi.
    destruct (_hash_resize_total t Hinv) as (t1 & Hall & Hinv1 & Hc1 & Hm1).
    { change (2 ^ 31) with 2147483648. lia. }
    { assert (capacity t < 2 ^ 30) as Hlt by (change (2 ^ 30) with 1073741824; lia).
      pose proof (load_size _ Hload Hlt). pose proof (inv_capacity_pos _ Hinv). lia. }
    exists t1. split; [exact Hall|]. split; [exact Hc1|].
    split; [|split; [|split; [|split; [|split]]]].
    + rewrite (inv_len _ Hinv1), Hc1. reflexivity.
    + apply NoDup_Permutation; [apply nodes_NoDup, Hinv1|apply nodes_NoDup, Hinv|].
      intros a. rewrite !elem_of_nodes, Hm1 by assumption. tauto.
    + intros i ch a Hch Ha. rewrite <- (inv_home _ Hinv1 i ch a Hch Ha), <- Hc1.
      unfold home. rewrite Z2Nat.id; [reflexivity|].
      apply Z.mod_pos_bound, inv_capacity_pos, Hinv1.
    + intros k. apply hash_get_eq; assumption.
    + rewrite (inv_count _ Hinv1), Hm1, size_to_map by assumption. reflexivity.
    + apply num_elems_eq; assumption.
Qed.

Lemma growth_preserves_data_witness :
  (exists t, (forall depth, insert_all (S depth) hash_create (sample_pairs 200) = Some t)
     /\ (forall k v, (k, v) ∈ sample_pairs 200 -> hash_get t k = Some v)
     /\ all_keys t ≡ₚ (sample_pairs 200).*1
     /\ num_elems t = uint (Z.of_nat (length (sample_pairs 200)))
     /\ (Z.of_nat (length (sample_pairs 200)) < 2 ^ 32 ->
         num_elems t = Z.of_nat (length (sample_pairs 200)))
     /\ (exists i, 4 <= i <= 30 /\ capacity t = 2 ^ i)
     /\ (capacity t <= 2 ^ 21 -> Z.of_nat (length (sample_pairs 200)) <= 5 * capacity t + 1)
     /\ (capacity t < 2 ^ 30 -> Z.of_nat (length (sample_pairs 200)) <= 6 * capacity t)
     /\ (capacity t = 16 \/ 5 * capacity t < 2 * Z.of_nat (length (sample_pairs 200))))
  /\ (forall t, reachable t -> over_threshold t = true ->
        exists t1, (forall depth, _hash_resize (hash_insert depth) t = Some t1)
          /\ capacity t1 = 2 * capacity t
          /\ length (table t1) = Z.to_nat (2 * capacity t)
          /\ concat (table t1) ≡ₚ concat (table t)
          /\ (forall i ch a, table t1 !! i = Some ch -> a ∈ ch ->
                Z.of_nat i = _djb_hash (key a) mod (2 * capacity t))
          /\ (forall k, hash_get t1 k = hash_get t k)
          /\ num_elems t1 = uint (Z.of_nat (length (concat (table t))))
          /\ num_elems t1 = num_elems t).
Proof.
  apply growth_preserves_data.
  - by_evaluation.
  - by_evaluation.
Defined.

(** The two hundred sample keys take the table from 16 to 64 buckets. *)
Example growth_200 :
  (fun t => (capacity t, num_elems t)) <$> insert_all 1 hash_create (sample_pairs 200)
  = Some (64, 200).
Proof. vm_compute. reflexivity. Qed.

(** C1, as stated, fails: the eighty-first insertion into a new table finds
    eighty keys in sixteen buckets, a load factor of exactly 5.0, which is
    not over the threshold; the key is added without a resize and the load
    factor is 81/16. *)
Lemma load_factor_exceeds_threshold :
  reachable (sample_table 80)
  /\ hash_insert 1 (sample_table 80) (sample_key 80) 81 = Some (sample_table 81)
  /\ capacity (sample_table 81) = 16
  /\ num_elems (sample_table 81) = 81
  /\ over_threshold (sample_table 81) = true
  /\ ~ (num_elems (sample_table 81) <= 5 * capacity (sample_table 81)).
Proof.
  split; [sample_reachable|].
  split; [vm_compute; reflexivity|].
  split; [vm_compute; reflexivity|].
  split; [vm_compute; reflexivity|].
  split; [vm_compute; reflexivity|].
  vm_compute. intros H. apply H. reflexivity.
Qed.

(** C1, amended. The load factor is tested before the new element is added,
    so after an insertion it can exceed the threshold by that element: the
    table a call of [hash_insert] leaves holds at most [5 * capacity + 1]
    keys when it has at most [2^21] buckets, where the binary32 test is
    exact, and at most [6 * capacity] keys in any case. *)
Theorem load_factor_after_insert t depth k v t' :
  reachable t -> hash_insert depth t k v = Some t' ->
  num_elems t' <= 6 * capacity t' /\
  (capacity t' <= 2 ^ 21 -> num_elems t' <= 5 * capacity t' + 1).
Proof.
  intros Hr E. pose proof (reachable_insert _ _ _ _ _ Hr E) as Hr'.
  destruct (reachable_inv t' Hr') as (Hinv & Hload & Htight).
  pose proof (num_elems_le_size _ Hinv) as Hle.
  split.
  - destruct (capacity_cases t' Hinv (load_cap _ Hload)) as [Ec|[_ Hhi]].
    + pose proof (num_elems_range _ Hinv) as Hn. rewrite Ec.
      change (2 ^ 32) with 4294967296 in Hn. change (2 ^ 30) with 1073741824. lia.
    + assert (capacity t' < 2 ^ 30) as Hlt.
      { change (2 ^ 29) with 536870912 in Hhi. change (2 ^ 30) with 1073741824. lia. }
      pose proof (load_size _ Hload Hlt). lia.
  - intros Hcap. specialize (Htight Hcap). lia.
Qed.

Lemma load_factor_after_insert_witness :
  num_elems (sample_table 81) <= 6 * capacity (sample_table 81) /\
  (capacity (sample_table 81) <= 2 ^ 21 ->
   num_elems (sample_table 81) <= 5 * capacity (sample_table 81) + 1).
Proof.
  apply (load_factor_after_insert (sample_table 80) 1 (sample_key 80) 81).
  - sample_reachable.
  - vm_compute. reflexivity.
Defined.

(** C2, as stated, fails for a removal: [hash_insert] tests the load factor
    before it looks at the value, so the removal of a key from the table of
    eighty-one keys in sixteen buckets resizes it to thirty-two buckets. *)
Lemma removal_resizes :
  reachable (sample_table 81)
  /\ capacity (sample_table 81) = 16
  /\ (fun t => (capacity t, num_elems t)) <$>
       hash_insert 1 (sample_table 81) (sample_key 0) NULL = Some (32, 80).
Proof.
  split; [sample_reachable|].
  split; vm_compute; reflexivity.
Qed.

(** C2, amended. A lookup returns and leaves the table, hence its capacity,
    as it was.  A call of [hash_insert] with the value [NULL] resizes
    exactly when it finds the load factor over the threshold: the capacity
    is then doubled, and is unchanged otherwise. *)
Theorem capacity_after_lookup_or_removal t k :
  reachable t ->
  (forall depth, exists r, step depth t (Get k) = Some (t, r)) /\
  (exists t', (forall depth, hash_insert (S depth) t k NULL = Some t')
     /\ (forall depth t'', hash_insert depth t k NULL = Some t'' -> t'' = t')
     /\ capacity t' = (if over_threshold t then 2 * capacity t else capacity t)).
Proof.
  intros Hr. destruct (reachable_inv t Hr) as (Hinv & _ & _). split.
  - intros depth. simpl. rewrite hash_get_spec by assumption. eexists. reflexivity.
  - destruct (reachable_insert_result t k NULL Hr) as (t1 & t' & R).
    exists t'. split; [apply (insert_result_returns _ _ _ _ _ R)|].
    split; [intros depth t''; apply (insert_result_unique _ _ _ _ _ _ _ R)|].
    rewrite (res_cap _ _ _ _ _ R). apply (res_cap1 _ _ _ _ _ R).
Qed.

Lemma capacity_after_lookup_or_removal_witness :
  (forall depth, exists r, step depth (sample_table 81) (Get (sample_key 0))
                           = Some (sample_table 81, r)) /\
  (exists t', (forall depth, hash_insert (S depth) (sample_table 81) (sample_key 0) NULL = Some t')
     /\ (forall depth t'',
           hash_insert depth (sample_table 81) (sample_key 0) NULL = Some t'' -> t'' = t')
     /\ capacity t' = (if over_threshold (sample_table 81)
                       then 2 * capacity (sample_table 81)
                       else capacity (sample_table 81))).
Proof.
  apply capacity_after_lookup_or_removal.
  sample_reachable.
Defined.

End Properties.

(** * Further properties of the code *)

Section Further.

Ltac sample_reachable := apply reachable_sample; vm_compute; eexists; reflexivity.

Ltac by_evaluation := apply (bool_decide_unpack _); vm_compute; exact I.

Lemma djb_loop_ideal k : forall acc acc',
  acc mod 2 ^ 64 = acc' mod 2 ^ 64 ->
  djb_loop acc k mod 2 ^ 64 = djb_ideal acc' k mod 2 ^ 64.
Proof.
  induction k as [|a k IH]; intros acc acc' E; simpl; [exact E|].
  apply IH. unfold ulong.
  rewrite Z.mod_mod, !Zplus_mod_idemp_l by lia.
  rewrite Z.shiftl_mul_pow2 by lia. change (2 ^ 5) with 32.
  rewrite <- Z.add_assoc, Zplus_mod_idemp_l, Z.add_assoc.
  replace (acc * 32 + acc + char_to_int a) with (acc * 33 + char_to_int a) by lia.
  rewrite (Zplus_mod (acc * 33)), (Zmult_mod acc), E.
  rewrite <- Zmult_mod, <- Zplus_mod. reflexivity.
Qed.

(** X1. [_djb_hash] is the recurrence [hash * 33 + c] from the seed 5381,
    taken over the integers with every character as the signed [char] that
    the code reads (from -128 to 127), and reduced modulo [2^32]: the
    wrap-around of the 64-bit accumulator does not show in the result.  The
    sign of the characters does: the key of the one byte [0xC8], read as
    -56, has the hash value [5381 * 33 - 56], not [5381 * 33 + 200]. *)
Theorem djb_hash_is_times_33 k :
  _djb_hash k = djb_ideal 5381 k mod 2 ^ 32
  /\ char_to_int (ascii_of_nat 200) = -56
  /\ _djb_hash (String (ascii_of_nat 200) EmptyString) = 5381 * 33 - 56.
Proof.
  split; [|split; vm_compute; reflexivity].
  unfold _djb_hash, uint.
  assert (Hd : (2 ^ 32 | 2 ^ 64)) by (exists (2 ^ 32); reflexivity).
  rewrite <- (Z.mod_mod_divide (djb_loop 5381 k) _ _ Hd).
  rewrite (djb_loop_ideal k 5381 5381 eq_refl).
  apply Z.mod_mod_divide, Hd.
Qed.

Lemma create_bucket k : table hash_create !! home (capacity hash_create) k = Some [].
Proof.
  apply lookup_replicate_2. apply (home_lt 16 k). lia.
Qed.

(** X2. A new table is empty: [hash_get] of every key returns [NULL], and
    the removal of any key returns and leaves the table as it is, at every
    depth. *)
Theorem new_table_is_empty k :
  hash_get hash_create k = Some NULL /\
  (forall depth, hash_insert depth hash_create k NULL = Some hash_create).
Proof.
  split.
  - unfold hash_get. change (capacity hash_create =? 0) with false. cbv iota.
    fold (home (capacity hash_create) k). rewrite create_bucket. reflexivity.
  - intros depth. rewrite hash_insert_no_resize by (vm_compute; reflexivity).
    unfold insert_in_bucket. change (capacity hash_create =? 0) with false. cbv iota.
    fold (home (capacity hash_create) k). rewrite create_bucket. reflexivity.
Qed.

(** X3. The capacity of a reachable table is a power of two from 16 to
    [2^30], so its doubling never wraps around, and the bucket array has
    that many buckets. *)
Theorem capacity_is_power_of_two t :
  reachable t ->
  exists i, 4 <= i <= 30 /\ capacity t = 2 ^ i /\ length (table t) = Z.to_nat (2 ^ i).
Proof.
  intros Hr. destruct (reachable_inv t Hr) as (Hinv & Hload & _).
  destruct (inv_pow2 _ Hinv) as (i & Hi & Ec).
  exists i. split; [|split; [exact Ec | rewrite <- Ec; apply (inv_len _ Hinv)]].
  split; [lia|].
  pose proof (load_cap _ Hload) as Hc. rewrite Ec in Hc.
  destruct (Z_le_gt_dec i 30) as [|Hgt]; [assumption|].
  assert (2 ^ 31 <= 2 ^ i) by (apply Z.pow_le_mono_r; lia).
  change (2 ^ 31) with 2147483648 in *. change (2 ^ 30) with 1073741824 in *. lia.
Qed.

Lemma capacity_is_power_of_two_witness :
  exists i, 4 <= i <= 30 /\ capacity (sample_table 200) = 2 ^ i
    /\ length (table (sample_table 200)) = Z.to_nat (2 ^ i).
Proof. apply capacity_is_power_of_two. sample_reachable. Defined.

(** X4. A call of [hash_insert], whatever the value, resizes exactly when
    it finds the load factor over the threshold: the capacity is then
    doubled, and is unchanged otherwise; it never decreases. *)
Theorem capacity_doubles_or_stays t depth k v t' :
  reachable t -> hash_insert depth t k v = Some t' ->
  capacity t' = (if over_threshold t then 2 * capacity t else capacity t) /\
  capacity t <= capacity t'.
Proof.
  intros Hr E. destruct (reachable_inv t Hr) as (Hinv & _ & _).
  destruct (reachable_insert_result t k v Hr) as (t1 & t2 & R).
  rewrite (insert_result_unique _ _ _ _ _ _ _ R E).
  rewrite (res_cap _ _ _ _ _ R), (res_cap1 _ _ _ _ _ R).
  pose proof (inv_capacity_pos _ Hinv).
  split; [reflexivity|]. destruct (over_threshold t); lia.
Qed.

Lemma capacity_doubles_or_stays_witness :
  capacity (sample_table 82) =
    (if over_threshold (sample_table 81) then 2 * capacity (sample_table 81)
     else capacity (sample_table 81)) /\
  capacity (sample_table 81) <= capacity (sample_table 82).
Proof.
  apply (capacity_doubles_or_stays (sample_table 81) 1 (sample_key 81) 82).
  - sample_reachable.
  - vm_compute. reflexivity.
Defined.

(** X5. [num_elems] counts the nodes of the chains, modulo [2^32] as the
    counter is an [unsigned int]; below [2^30] buckets it is their number. *)
Theorem num_elems_counts_nodes t :
  reachable t ->
  num_elems t = uint (Z.of_nat (length (all_keys t))) /\
  (capacity t < 2 ^ 30 -> num_elems t = Z.of_nat (length (all_keys t))).
Proof.
  intros Hr. destruct (reachable_inv t Hr) as (Hinv & Hload & _).
  rewrite all_keys_length by assumption. split.
  - apply (inv_count _ Hinv).
  - intros Hlt. apply num_elems_size; assumption.
Qed.

Lemma num_elems_counts_nodes_witness :
  num_elems (sample_table 200) = uint (Z.of_nat (length (all_keys (sample_table 200)))) /\
  (capacity (sample_table 200) < 2 ^ 30 ->
   num_elems (sample_table 200) = Z.of_nat (length (all_keys (sample_table 200)))).
Proof. apply num_elems_counts_nodes. sample_reachable. Defined.

(** X6. Every node of a reachable table sits in the bucket that its key
    hashes to under the current capacity, and carries a value other than
    [NULL]. *)
Theorem nodes_in_home_bucket t i (ch : chain) a :
  reachable t -> table t !! i = Some ch -> a ∈ ch ->
  Z.of_nat i = _djb_hash (key a) mod capacity t /\ value a <> NULL.
Proof.
  intros Hr Hi Ha. destruct (reachable_inv t Hr) as (Hinv & _ & _).
  split; [|apply (inv_nonnull _ Hinv _ _ _ Hi Ha)].
  rewrite <- (inv_home _ Hinv _ _ _ Hi Ha). unfold home.
  pose proof (inv_capacity_pos _ Hinv) as Hc.
  pose proof (Z.mod_pos_bound (_djb_hash (key a)) (capacity t) ltac:(lia)). lia.
Qed.

Lemma nodes_in_home_bucket_witness :
  Z.of_nat 6 = _djb_hash (key {| key := sample_key 0; value := 1 |})
                 mod capacity (sample_table 20)
  /\ value {| key := sample_key 0; value := 1 |} <> NULL.
Proof.
  apply (nodes_in_home_bucket (sample_table 20) 6
           (default [] (table (sample_table 20) !! 6%nat))).
  - sample_reachable.
  - vm_compute. reflexivity.
  - vm_compute. right. left.
Defined.

Lemma to_map_nonnull h k v : inv h -> to_map h !! k = Some v -> v <> NULL.
Proof.
  intros Hinv H.
  assert (Ha : {| key := k; value := v |} ∈ concat (table h)) by (apply elem_of_nodes; assumption).
  apply elem_of_concat_lookup in Ha as (i & ch & Hi & Ha).
  apply (inv_nonnull _ Hinv _ _ _ Hi Ha).
Qed.

(** X7. [hash_get] on a reachable table always returns; it returns the
    value of the node that carries the key, and it returns [NULL] exactly
    when no node carries the key. *)
Theorem lookup_finds_stored_value t k :
  reachable t ->
  (exists v, hash_get t k = Some v) /\
  (forall v, {| key := k; value := v |} ∈ concat (table t) -> hash_get t k = Some v) /\
  (hash_get t k = Some NULL <-> k ∉ all_keys t).
Proof.
  intros Hr. destruct (reachable_inv t Hr) as (Hinv & _ & _).
  rewrite hash_get_spec by assumption.
  split; [eexists; reflexivity|]. split.
  - intros v Hv. apply (elem_of_nodes t _ Hinv) in Hv. simpl in Hv. rewrite Hv. reflexivity.
  - rewrite all_keys_to_map, <- eq_None_not_Some. split.
    + destruct (to_map t !! k) as [v|] eqn:E; [|reflexivity].
      simpl. intros [= ->]. exfalso. apply (to_map_nonnull t k NULL Hinv E). reflexivity.
    + intros ->. reflexivity.
Qed.

Lemma lookup_finds_stored_value_witness :
  (exists v, hash_get (sample_table 100) (sample_key 7) = Some v) /\
  (forall v, {| key := sample_key 7; value := v |} ∈ concat (table (sample_table 100)) ->
             hash_get (sample_table 100) (sample_key 7) = Some v) /\
  (hash_get (sample_table 100) (sample_key 7) = Some NULL
   <-> sample_key 7 ∉ all_keys (sample_table 100)).
Proof. apply lookup_finds_stored_value. sample_reachable. Defined.

(** X8. A call of [hash_insert] for one key, whatever the value and whether
    or not it resizes, leaves the value that [hash_get] returns for every
    other key. *)
Theorem insert_preserves_other_keys t depth k v t' k' :
  reachable t -> k' <> k -> hash_insert depth t k v = Some t' ->
  hash_get t' k' = hash_get t k'.
Proof.
  intros Hr Hne E. destruct (reachable_inv t Hr) as (Hinv & _ & _).
  destruct (reachable_insert_result t k v Hr) as (t1 & t2 & R).
  rewrite (insert_result_unique _ _ _ _ _ _ _ R E).
  rewrite !hash_get_spec by (assumption || apply (res_inv _ _ _ _ _ R)).
  rewrite (res_map _ _ _ _ _ R), map_upsert_lookup.
  destruct (decide (k = k')); [congruence|reflexivity].
Qed.

Lemma insert_preserves_other_keys_witness :
  hash_get (sample_table 82) (sample_key 5) = hash_get (sample_table 81) (sample_key 5).
Proof.
  apply (insert_preserves_other_keys (sample_table 81) 1 (sample_key 81) 82).
  - sample_reachable.
  - discriminate.
  - vm_compute. reflexivity.
Defined.

(** X9. The insertion of a key that no node carries, with a value other
    than [NULL], into a table of fewer than [2^32 - 1] nodes returns, adds
    one node, the node of the key, and adds one to [num_elems]. *)
Theorem insert_new_key t k v :
  reachable t -> k ∉ all_keys t -> v <> NULL ->
  Z.of_nat (length (all_keys t)) + 1 < 2 ^ 32 ->
  exists t', (forall depth, hash_insert (S depth) t k v = Some t')
    /\ num_elems t' = num_elems t + 1
    /\ all_keys t' ≡ₚ k :: all_keys t.
Proof.
  intros Hr Hk Hv Hlen. destruct (reachable_inv t Hr) as (Hinv & _ & _).
  destruct (reachable_insert_result t k v Hr) as (t1 & t' & R).
  pose proof (res_inv _ _ _ _ _ R) as Hinv'.
  assert (Hm : to_map t' = <[k := v]> (to_map t)).
  { rewrite (res_map _ _ _ _ _ R). apply map_upsert_nonnull, Hv. }
  assert (Hnone : to_map t !! k = None).
  { rewrite all_keys_to_map, <- eq_None_not_Some in Hk. exact Hk. }
  rewrite all_keys_length in Hlen by assumption.
  exists t'. split; [apply (insert_result_returns _ _ _ _ _ R)|]. split.
  - rewrite (inv_count _ Hinv), (inv_count _ Hinv'), Hm, map_size_insert_None by assumption.
    rewrite !uint_small; lia.
  - apply NoDup_Permutation.
    + apply all_keys_NoDup, Hinv'.
    + apply NoDup_cons. split; [exact Hk | apply all_keys_NoDup, Hinv].
    + intros x. rewrite elem_of_cons, !all_keys_to_map, Hm.
      destruct (decide (x = k)) as [->|Hne].
      * rewrite lookup_insert_eq. split; eauto.
      * rewrite lookup_insert_ne by congruence. tauto.
Qed.

Lemma insert_new_key_witness :
  exists t', (forall depth, hash_insert (S depth) (sample_table 81) "new" 5 = Some t')
    /\ num_elems t' = num_elems (sample_table 81) + 1
    /\ all_keys t' ≡ₚ "new" :: all_keys (sample_table 81).
Proof.
  apply insert_new_key.
  - sample_reachable.
  - by_evaluation.
  - discriminate.
  - vm_compute. reflexivity.
Defined.

Lemma upsert_chain_absent k v (ch : chain) :
  k ∉ (key <$> ch) -> v <> NULL -> upsert_chain k v ch = {| key := k; value := v |} :: ch.
Proof.
  intros Hk Hv. unfold upsert_chain.
  destruct (find_assoc k ch) as [before found] eqn:Hf.
  apply chain_map_None in Hk. apply (find_assoc_found _ _ _ _ Hf) in Hk. subst found.
  destruct (Z.eqb_spec v NULL); [contradiction|reflexivity].
Qed.

(** X10. A call of [hash_insert] that finds the load factor within the
    threshold keeps the capacity and touches the bucket of its key alone;
    a key that no node carries is put, with a value other than [NULL], at
    the head of the chain of that bucket. *)
Theorem insert_touches_one_bucket t depth k v t' :
  reachable t -> over_threshold t = false -> hash_insert depth t k v = Some t' ->
  capacity t' = capacity t /\
  (forall i, i <> home (capacity t) k -> table t' !! i = table t !! i) /\
  (k ∉ all_keys t -> v <> NULL ->
   exists ch, table t !! home (capacity t) k = Some ch
     /\ table t' !! home (capacity t) k = Some ({| key := k; value := v |} :: ch)).
Proof.
  intros Hr Hover E. destruct (reachable_inv t Hr) as (Hinv & _ & _).
  destruct (reachable_insert_result t k v Hr) as (t1 & t2 & R).
  rewrite (insert_result_unique _ _ _ _ _ _ _ R E).
  pose proof (res_same _ _ _ _ _ R Hover) as ->.
  pose proof (res_table _ _ _ _ _ R) as Ht.
  pose proof (inv_bucket t k Hinv) as Hb.
  split; [apply (res_cap _ _ _ _ _ R)|]. split.
  - intros i Hi. rewrite Ht. apply list_lookup_insert_ne. congruence.
  - intros Hk Hv. eexists. split; [exact Hb|].
    rewrite Ht, list_lookup_insert_eq by (eapply lookup_lt_Some, Hb).
    rewrite upsert_chain_absent; [reflexivity| |assumption].
    apply chain_map_None. rewrite <- to_map_lookup by assumption.
    rewrite all_keys_to_map, <- eq_None_not_Some in Hk. exact Hk.
Qed.

Lemma insert_touches_one_bucket_witness :
  capacity (sample_table 41) = capacity (sample_table 40) /\
  (forall i, i <> home (capacity (sample_table 40)) (sample_key 40) ->
     table (sample_table 41) !! i = table (sample_table 40) !! i) /\
  (sample_key 40 ∉ all_keys (sample_table 40) -> 41 <> NULL ->
   exists ch, table (sample_table 40) !! home (capacity (sample_table 40)) (sample_key 40) = Some ch
     /\ table (sample_table 41) !! home (capacity (sample_table 40)) (sample_key 40)
        = Some ({| key := sample_key 40; value := 41 |} :: ch)).
Proof.
  apply (insert_touches_one_bucket (sample_table 40) 1 (sample_key 40) 41).
  - sample_reachable.
  - vm_compute. reflexivity.
  - vm_compute. reflexivity.
Defined.

(** X11. Insertion then removal is a round trip for the contents: after a
    key that no node carries is inserted and then removed, every key is
    looked up to the value it had, the chains carry the keys they carried,
    and [num_elems] is what it was (the capacity may have grown). *)
Theorem insert_then_remove t k v :
  reachable t -> k ∉ all_keys t -> v <> NULL ->
  exists t1 t2, (forall depth, hash_insert (S depth) t k v = Some t1)
    /\ (forall depth, hash_insert (S depth) t1 k NULL = Some t2)
    /\ (forall k', hash_get t2 k' = hash_get t k')
    /\ num_elems t2 = num_elems t
    /\ all_keys t2 ≡ₚ all_keys t.
Proof.
  intros Hr Hk Hv. destruct (reachable_inv t Hr) as (Hinv & _ & _).
  destruct (reachable_insert_result t k v Hr) as (t0 & t1 & R1).
  destruct (hash_insert_total t1 k NULL (res_inv _ _ _ _ _ R1) (res_load _ _ _ _ _ R1)
              (res_tight _ _ _ _ _ R1)) as (t1' & t2 & R2).
  pose proof (res_inv _ _ _ _ _ R2) as Hinv2.
  assert (Hm : to_map t2 = to_map t).
  { rewrite (res_map _ _ _ _ _ R2), (res_map _ _ _ _ _ R1).
    rewrite (map_upsert_nonnull k v) by assumption.
    unfold map_upsert. simpl. apply delete_insert_id.
    rewrite all_keys_to_map, <- eq_None_not_Some in Hk. exact Hk. }
  exists t1, t2. split; [apply (insert_result_returns _ _ _ _ _ R1)|].
  split; [apply (insert_result_returns _ _ _ _ _ R2)|].
  split; [intros k'; apply hash_get_eq; assumption|].
  split; [apply num_elems_eq; assumption|].
  apply NoDup_Permutation; try (apply all_keys_NoDup; assumption).
  intros x. rewrite !all_keys_to_map, Hm. tauto.
Qed.

Lemma insert_then_remove_witness :
  exists t1 t2, (forall depth, hash_insert (S depth) (sample_table 81) "new" 5 = Some t1)
    /\ (forall depth, hash_insert (S depth) t1 "new" NULL = Some t2)
    /\ (forall k', hash_get t2 k' = hash_get (sample_table 81) k')
    /\ num_elems t2 = num_elems (sample_table 81)
    /\ all_keys t2 ≡ₚ all_keys (sample_table 81).
Proof.
  apply insert_then_remove.
  - sample_reachable.
  - by_evaluation.
  - discriminate.
Defined.

(** A list of calls of [hash_insert], whatever the keys and the values,
    returns on a table that satisfies the invariants. *)
Lemma insert_all_map kvs h :
  inv h -> inv_load h -> inv_tight h ->
  exists h', (forall depth, insert_all (S depth) h kvs = Some h')
    /\ inv h'
    /\ to_map h' = foldl (fun m kv => map_upsert kv.1 kv.2 m) (to_map h) kvs.
Proof.
  revert h. induction kvs as [|[k v] kvs IH]; intros h Hinv Hload Htight.
  - exists h. split; [reflexivity|]. split; [assumption|reflexivity].
  - destruct (hash_insert_total h k v Hinv Hload Htight) as (h1 & h2 & R).
    destruct (IH h2 (res_inv _ _ _ _ _ R) (res_load _ _ _ _ _ R) (res_tight _ _ _ _ _ R))
      as (h' & Hall & Hinv' & Hm').
    exists h'. split; [|split; [assumption|]].
    + intros depth. cbn [insert_all]. rewrite (insert_result_returns _ _ _ _ _ R).
      simpl. apply Hall.
    + rewrite Hm', (res_map _ _ _ _ _ R). reflexivity.
Qed.

(** X12. Calls of [hash_insert] for two different keys commute for the
    contents: in either order they return, and leave tables on which
    [hash_get] agrees for every key, with the same [num_elems] and the same
    keys in the chains (the capacities may differ). *)
Theorem inserts_commute t k1 v1 k2 v2 :
  reachable t -> k1 <> k2 ->
  exists ta tb,
    (forall depth, insert_all (S depth) t [(k1, v1); (k2, v2)] = Some ta)
    /\ (forall depth, insert_all (S depth) t [(k2, v2); (k1, v1)] = Some tb)
    /\ (forall k, hash_get ta k = hash_get tb k)
    /\ num_elems ta = num_elems tb
    /\ all_keys ta ≡ₚ all_keys tb.
Proof.
  intros Hr Hne. destruct (reachable_inv t Hr) as (Hinv & Hload & Htight).
  destruct (insert_all_map [(k1, v1); (k2, v2)] t Hinv Hload Htight) as (ta & Ha & Hinva & Hma).
  destruct (insert_all_map [(k2, v2); (k1, v1)] t Hinv Hload Htight) as (tb & Hb & Hinvb & Hmb).
  assert (Hm : to_map ta = to_map tb).
  { rewrite Hma, Hmb. simpl. apply map_eq. intros k. rewrite !map_upsert_lookup.
    destruct (decide (k2 = k)), (decide (k1 = k)); congruence. }
  exists ta, tb. split; [exact Ha|]. split; [exact Hb|].
  split; [intros k; apply hash_get_eq; assumption|].
  split; [apply num_elems_eq; assumption|].
  apply NoDup_Permutation; try (apply all_keys_NoDup; assumption).
  intros x. rewrite !all_keys_to_map, Hm. tauto.
Qed.

Lemma inserts_commute_witness :
  exists ta tb,
    (forall depth, insert_all (S depth) (sample_table 81)
                     [(sample_key 3, NULL); ("new", 5)] = Some ta)
    /\ (forall depth, insert_all (S depth) (sample_table 81)
                        [("new", 5); (sample_key 3, NULL)] = Some tb)
    /\ (forall k, hash_get ta k = hash_get tb k)
    /\ num_elems ta = num_elems tb
    /\ all_keys ta ≡ₚ all_keys tb.
Proof.
  apply inserts_commute.
  - sample_reachable.
  - discriminate.
Defined.

(** X13. The load-factor test against the counts: on a reachable table it
    is true only when [num_elems] exceeds five times the capacity, and it
    is true whenever [num_elems] reaches six times the capacity; up to
    [2^21] buckets it is exactly [num_elems > 5 * capacity]. *)
Theorem resize_trigger_bounds t :
  reachable t ->
  (over_threshold t = true -> 5 * capacity t < num_elems t) /\
  (over_threshold t = false -> num_elems t < 6 * capacity t) /\
  (capacity t <= 2 ^ 21 -> over_threshold t = (5 * capacity t <? num_elems t)).
Proof.
  intros Hr. destruct (reachable_inv t Hr) as (Hinv & Hload & Htight).
  split; [intros H; apply (over_threshold_true_inv t Hinv Hload H)|].
  split; [apply (over_threshold_false_inv t Hinv)|].
  intros Hcap. apply over_threshold_exact; [assumption|].
  pose proof (num_elems_le_size _ Hinv). specialize (Htight Hcap).
  change (2 ^ 21) with 2097152 in Hcap. change (2 ^ 24) with 16777216. lia.
Qed.

Lemma resize_trigger_bounds_witness :
  (over_threshold (sample_table 81) = true ->
   5 * capacity (sample_table 81) < num_elems (sample_table 81)) /\
  (over_threshold (sample_table 81) = false ->
   num_elems (sample_table 81) < 6 * capacity (sample_table 81)) /\
  (capacity (sample_table 81) <= 2 ^ 21 ->
   over_threshold (sample_table 81)
   = (5 * capacity (sample_table 81) <? num_elems (sample_table 81))).
Proof. apply resize_trigger_bounds. sample_reachable. Defined.

(** X14. [hash_load_factor] is exact on a reachable table of fewer than
    [2^24] keys: the binary32 number it returns is the quotient of
    [num_elems] by the capacity, without rounding. *)
Theorem load_factor_is_exact t :
  reachable t -> 0 < num_elems t < 2 ^ 24 ->
  exists M e, hash_load_factor t = S754_finite false M e
    /\ 0 <= e + 64
    /\ Zpos M * 2 ^ (e + 64) * capacity t = num_elems t * 2 ^ 64.
Proof.
  intros Hr Hn. destruct (reachable_inv t Hr) as (Hinv & _ & _).
  destruct (inv_pow2 _ Hinv) as (i & Hi & Ec).
  unfold hash_load_factor. rewrite Ec, f32_of_uint_pow2 by lia.
  destruct (num_elems t) as [|p|p]; try lia.
  destruct (f32_of_uint_pos p ltac:(lia)) as (M & -> & HM & Hd).
  assert (Hl : 0 <= Z.log2 (Zpos p) < 24).
  { split; [apply Z.log2_nonneg|]. apply Z.log2_lt_pow2; lia. }
  rewrite f32_div_pow2 by (auto; lia).
  eexists _, _. split; [reflexivity|]. split; [lia|].
  rewrite HM, <- !Z.mul_assoc, <- !Z.pow_add_r by lia.
  do 2 f_equal. lia.
Qed.

Lemma load_factor_is_exact_witness :
  exists M e, hash_load_factor (sample_table 81) = S754_finite false M e
    /\ 0 <= e + 64
    /\ Zpos M * 2 ^ (e + 64) * capacity (sample_table 81)
       = num_elems (sample_table 81) * 2 ^ 64.
Proof.
  apply load_factor_is_exact.
  - sample_reachable.
  - vm_compute. split; reflexivity.
Defined.

Lemma free_chain_nodes (ch : chain) : free_chain ch = FreeNode <$> ch.
Proof. induction ch as [|a ch IH]; [reflexivity|]. simpl. rewrite IH. reflexivity. Qed.

Lemma free_buckets_nodes (tbl : list chain) : free_buckets tbl = FreeNode <$> concat tbl.
Proof.
  induction tbl as [|ch tbl IH]; [reflexivity|].
  simpl. rewrite fmap_app, IH, free_chain_nodes. reflexivity.
Qed.

(** X15. [hash_free] of a reachable table returns: it frees every node of
    the chains once, bucket after bucket, then the bucket array, then the
    [struct hash], and nothing else (no key, no value).  The nodes freed
    carry different keys, and their number is [num_elems] below [2^30]
    buckets. *)
Theorem hash_free_releases_every_node t :
  reachable t ->
  hash_free t = Some ((FreeNode <$> concat (table t)) ++ [FreeTable (table t); FreeHash])
  /\ NoDup (key <$> concat (table t))
  /\ (capacity t < 2 ^ 30 -> Z.of_nat (length (concat (table t))) = num_elems t).
Proof.
  intros Hr. destruct (reachable_inv t Hr) as (Hinv & Hload & _).
  split; [|split].
  - unfold hash_free.
    pose proof (load_cap _ Hload) as Hc.
    destruct (Z.leb_spec (2 ^ 31) (capacity t)) as [Hge|_].
    { change (2 ^ 31) with 2147483648 in Hge. change (2 ^ 30) with 1073741824 in Hc. lia. }
    rewrite inv_length_check, inv_take, free_buckets_nodes by assumption. reflexivity.
  - apply all_keys_NoDup, Hinv.
  - intros Hlt. rewrite (num_elems_size t Hinv Hload Hlt), size_to_map by assumption.
    reflexivity.
Qed.

Lemma hash_free_releases_every_node_witness :
  hash_free (sample_table 100)
  = Some ((FreeNode <$> concat (table (sample_table 100)))
          ++ [FreeTable (table (sample_table 100)); FreeHash])
  /\ NoDup (key <$> concat (table (sample_table 100)))
  /\ (capacity (sample_table 100) < 2 ^ 30 ->
      Z.of_nat (length (concat (table (sample_table 100)))) = num_elems (sample_table 100)).
Proof. apply hash_free_releases_every_node. sample_reachable. Defined.

Lemma foldl_last_assigned k kvs : forall m : gmap string ptr,
  default NULL (foldl (fun m kv => map_upsert kv.1 kv.2 m) m kvs !! k)
  = last_assigned k kvs (default NULL (m !! k)).
Proof.
  induction kvs as [|[k' v] kvs IH]; intros m; [reflexivity|].
  simpl. rewrite IH. f_equal. rewrite map_upsert_lookup.
  destruct (strcmp_cases k k') as [[-> ->]|[Hne ->]].
  - rewrite decide_True by reflexivity.
    destruct (Z.eqb_spec v NULL) as [->|]; reflexivity.
  - rewrite decide_False by congruence. reflexivity.
Qed.

(** X16. The table is a finite map under any list of calls of
    [hash_insert], with repeated keys and removals: the calls return, and
    [hash_get] of a key then returns the value last given to it in the
    list ([NULL] if that was a removal), or what it returned before when
    the list does not name the key. *)
Theorem last_value_wins t kvs :
  reachable t ->
  exists t', (forall depth, insert_all (S depth) t kvs = Some t')
    /\ (forall k r, hash_get t k = Some r -> hash_get t' k = Some (last_assigned k kvs r)).
Proof.
  intros Hr. destruct (reachable_inv t Hr) as (Hinv & Hload & Htight).
  destruct (insert_all_map kvs t Hinv Hload Htight) as (t' & Hall & Hinv' & Hm).
  exists t'. split; [exact Hall|].
  intros k r. rewrite !hash_get_spec by assumption. intros [= <-].
  rewrite Hm, foldl_last_assigned. reflexivity.
Qed.

Lemma last_value_wins_witness :
  exists t', (forall depth,
                insert_all (S depth) (sample_table 81)
                  [("a", 1); ("b", 2); ("a", 3); ("b", NULL)] = Some t')
    /\ (forall k r, hash_get (sample_table 81) k = Some r ->
          hash_get t' k = Some (last_assigned k [("a", 1); ("b", 2); ("a", 3); ("b", NULL)] r)).
Proof. apply last_value_wins. sample_reachable. Defined.

(** X17. Two calls in a row never both resize: a call of [hash_insert]
    that found the load factor over the threshold leaves a table whose
    load factor is within it. *)
Theorem resize_leaves_room t depth k v t' :
  reachable t -> over_threshold t = true -> hash_insert depth t k v = Some t' ->
  over_threshold t' = false.
Proof.
  intros Hr Hover E. destruct (reachable_inv t Hr) as (Hinv & Hload & _).
  destruct (reachable_insert_result t k v Hr) as (t1 & t2 & R).
  rewrite (insert_result_unique _ _ _ _ _ _ _ R E).
  pose proof (res_inv _ _ _ _ _ R) as Hinv'.
  destruct (over_threshold_true_inv t Hinv Hload Hover) as [_ Hhi].
  assert (Hlt : capacity t < 2 ^ 30).
  { change (2 ^ 29) with 536870912 in Hhi. change (2 ^ 30) with 1073741824. lia. }
  pose proof (load_size _ Hload Hlt) as Hsz.
  pose proof (map_upsert_size_le k v (to_map t)) as Hle.
  pose proof (num_elems_le_size _ Hinv') as Hn.
  pose proof (inv_capacity_pos _ Hinv) as Hpos.
  apply over_threshold_false; [assumption|].
  rewrite (res_cap _ _ _ _ _ R), (res_cap1 _ _ _ _ _ R), Hover.
  rewrite (res_map _ _ _ _ _ R) in Hn.
  destruct (inv_pow2 _ Hinv) as (i & Hi & Ec).
  assert (16 <= capacity t).
  { rewrite Ec. change 16 with (2 ^ 4). apply Z.pow_le_mono_r; lia. }
  lia.
Qed.

Lemma resize_leaves_room_witness : over_threshold (sample_table 82) = false.
Proof.
  apply (resize_leaves_room (sample_table 81) 1 (sample_key 81) 82).
  - sample_reachable.
  - vm_compute. reflexivity.
  - vm_compute. reflexivity.
Defined.

End Further.
